(** * The append-only record store of [internal/server/log/store.go]

    A shallow embedding of the [store] type and of its operations
    [newStore], [Append], [Read], [ReadAt] and [Close], together with the
    parts of the Go standard library the store is written against:
    [encoding/binary] (big-endian length prefix), [bufio.Writer] (the write
    buffer) and [os.File] over a small model of a file system.

    Conventions.  Go's [uint64] and [int64] values are integers in [Z] with
    the wrap-around written out ([to_uint64], [to_int64]).  Byte slices are
    [list byte].  Lengths and file offsets kept by the operating system are
    natural numbers.  A Go [error] result is an [option error], [None]
    standing for [nil].  The mutex [mu] is not modelled: every operation
    holds it from entry to exit, so the sequential reading below is the
    behaviour of any interleaving of whole operations.

    The system is the one the store is built for, Linux on a 64-bit
    machine: error numbers are those of its system calls and the limits of
    the allocator are those of the Go runtime there. *)

From Stdlib Require Import ZArith Lia.
From Stdlib Require Import Strings.Byte Strings.String.
From stdpp Require Import gmap strings list.

Open Scope Z_scope.

Abbreviation bytes := (list byte).

(** [len b] is Go's [len(b)], as an integer. *)
Definition len (b : bytes) : Z := Z.of_nat (length b).

(** ** Machine integers *)

Definition maxInt64 : Z := 2 ^ 63 - 1.
Definition to_uint64 (z : Z) : Z := z mod 2 ^ 64.
Definition to_int64 (z : Z) : Z := (z + 2 ^ 63) mod 2 ^ 64 - 2 ^ 63.

(** Go's conversion [byte(v)] and its inverse [uint64(b)]. *)
Definition byte_of_Z (z : Z) : byte :=
  match Byte.of_N (Z.to_N (z mod 256)) with
  | Some b => b
  | None => Byte.x00
  end.
Definition Z_of_byte (b : byte) : Z := Z.of_N (Byte.to_N b).

(** [make([]byte, n)]: a fresh slice of [n] zero bytes. *)
Definition make (n : nat) : bytes := replicate n Byte.x00.

(** ** Errors *)

Inductive error : Type :=
| ErrClosed          (* os.ErrClosed, "file already closed" *)
| EBADF              (* descriptor not open for the requested access *)
| ENOENT             (* no such file or directory *)
| ENOSPC             (* the volume accepts no more bytes *)
| ErrShortWrite      (* io.ErrShortWrite *)
| EOF                (* io.EOF *)
| ErrNegativeOffset  (* os.File.ReadAt, "negative offset" *)
| EINVAL             (* invalid argument *)
| EIO.               (* input/output error *)

(** ** [os]: files and the file system

    The part of Go's [os] package, and of the POSIX system under it, that a
    store touches.  A path resolves to an inode and an inode holds the bytes
    of a regular file.  An [os.File] is an
    open handle on an inode; it remembers the name it was opened under, the
    access mode, whether it was opened with [O_APPEND], its file offset, and
    whether it has been closed.  [quota] is the number of bytes the volume
    lets a file grow to; no file grows past [maxInt64] bytes either.
    [memory] is the number of bytes the system grants the process for one
    more allocation, and [close_error] what [close(2)] reports when a
    descriptor is released ([None] on a local file system; a deferred write
    error on a network one). *)

Module os.

Record World : Type := {
  paths : gmap string nat;
  inodes : gmap nat bytes;
  quota : Z;
  memory : Z;
  close_error : option error
}.

Record File : Type := {
  name : string;
  ino : nat;
  offset : nat;
  readable : bool;
  writable : bool;
  append : bool;
  closed : bool
}.

Definition data (w : World) (i : nat) : bytes := default [] (inodes w !! i).

Definition set_data (w : World) (i : nat) (d : bytes) : World :=
  {| paths := paths w; inodes := <[i := d]> (inodes w); quota := quota w;
     memory := memory w; close_error := close_error w |}.

Definition limit (w : World) : Z := Z.min (quota w) maxInt64.

(** Where the next [write(2)] through the handle lands: the end of the file
    for an [O_APPEND] handle, the file offset otherwise. *)
Definition cursor (w : World) (f : File) : nat :=
  if append f then length (data w (ino f)) else offset f.

(** The file contents after [b] is written at offset [at_]; a gap between
    the end of the file and [at_] reads as zero bytes, and writing nothing
    leaves the file as it is. *)
Definition write_at (d : bytes) (at_ : nat) (b : bytes) : bytes :=
  match b with
  | [] => d
  | _ => take at_ (d ++ replicate (at_ - length d) Byte.x00) ++ b
           ++ drop (at_ + length b) d
  end.

(** [os.Stat(name)], reduced to the size it reports. *)
Definition Stat (w : World) (nm : string) : Z * option error :=
  match paths w !! nm with
  | Some i => (len (data w i), None)
  | None => (0, Some ENOENT)
  end.

(** [File.Write]: the write loop of [internal/poll] over [write(2)].
    A closed handle and a handle not open for writing accept nothing.
    Otherwise the first [k] bytes are stored at the cursor, [k] being what
    fits under [limit]; a short count comes with [ENOSPC]. *)
Definition Write (w : World) (f : File) (b : bytes)
  : World * File * nat * option error :=
  if closed f then (w, f, 0%nat, Some ErrClosed)
  else if negb (writable f) then (w, f, 0%nat, Some EBADF)
  else
    let at_ := cursor w f in
    let k := Z.to_nat (Z.min (len b) (Z.max 0 (limit w - Z.of_nat at_))) in
    let e := if (k <? length b)%nat then Some ENOSPC else None in
    match k with
    | O => (w, f, 0%nat, e)
    | _ =>
        let w' := set_data w (ino f) (write_at (data w (ino f)) at_ (take k b)) in
        let f' := {| name := name f; ino := ino f; offset := (at_ + k)%nat;
                     readable := readable f; writable := writable f;
                     append := append f; closed := closed f |} in
        (w', f', k, e)
    end.

(** [File.ReadAt(b, off)]: a negative offset is refused; then
    [for len(b) > 0 { pread ... }], so an empty [b] is filled without
    touching the descriptor.  Otherwise [pread(2)] is called.  It refuses,
    with [EINVAL], a range [off .. off + len(b)] that ends past the largest
    file offset; it yields the bytes the file has from [off] on, and the
    loop ends with [io.EOF] when they do not fill [b].
    Returns the count, the new contents of [b] and the error. *)
Definition ReadAt (w : World) (f : File) (b : bytes) (off : Z)
  : nat * bytes * option error :=
  if off <? 0 then (0%nat, b, Some ErrNegativeOffset)
  else if (length b =? 0)%nat then (0%nat, b, None)
  else if closed f then (0%nat, b, Some ErrClosed)
  else if negb (readable f) then (0%nat, b, Some EBADF)
  else if maxInt64 <? off + len b then (0%nat, b, Some EINVAL)
  else
    let got := take (length b) (drop (Z.to_nat off) (data w (ino f))) in
    (length got, got ++ drop (length got) b,
     if (length got <? length b)%nat then Some EOF else None).

(** [File.Close]: a handle already closed is refused.  Otherwise the
    descriptor is released, whatever [close(2)] answers, and the answer of
    [close(2)] is the result. *)
Definition Close (w : World) (f : File) : File * option error :=
  if closed f then (f, Some ErrClosed)
  else ({| name := name f; ino := ino f; offset := offset f;
           readable := readable f; writable := writable f;
           append := append f; closed := true |}, close_error w).

End os.

(** ** [runtime]: the allocation behind [make]

    [make([]byte, n)] for an [n] of type [uint64].  The runtime panics
    ("len out of range") when [n] does not fit an [int] or exceeds
    [maxAlloc], the size of the address space the allocator manages.  A
    slice of no bytes takes no memory.  Otherwise the bytes are asked of the
    system, and the program is aborted ("out of memory"), which no [recover]
    catches, when the system does not grant them. *)

Module runtime.

Definition maxAlloc : Z := 2 ^ 48.

Inductive allocation : Type :=
| Allocated
| LenOutOfRange
| OutOfMemory.

Definition makeslice (w : os.World) (n : Z) : allocation :=
  if (maxInt64 <? n) || (maxAlloc <? n) then LenOutOfRange
  else if n =? 0 then Allocated
  else if os.memory w <? n then OutOfMemory
  else Allocated.

End runtime.

(** ** [bufio.Writer]

    [buf] holds the buffered bytes [b.buf[0:b.n]], so [b.n] is its length;
    [err] is the sticky error.  The underlying writer [b.wr] is the store's
    own file handle, which is why the functions below take and return it. *)

Module bufio.

Record Writer : Type := { err : option error; buf : bytes }.

Definition defaultBufSize : nat := 4096.

(** [bufio.NewWriter]. *)
Definition NewWriter : Writer := {| err := None; buf := [] |}.

Definition Buffered (b : Writer) : nat := length (buf b).
Definition Available (b : Writer) : nat := (defaultBufSize - length (buf b))%nat.

(** [Writer.Flush]. *)
Definition Flush (w : os.World) (f : os.File) (b : Writer)
  : os.World * os.File * Writer * option error :=
  match err b with
  | Some e => (w, f, b, Some e)
  | None =>
      if (Buffered b =? 0)%nat then (w, f, b, None)
      else
        let '(w', f', n, e) := os.Write w f (buf b) in
        let e :=
          match e with
          | None => if (n <? Buffered b)%nat then Some ErrShortWrite else None
          | Some _ => e
          end in
        match e with
        | Some e' =>
            let moved :=
              if (0 <? n)%nat && (n <? Buffered b)%nat
              then drop n (buf b) else buf b in
            (w', f',
             {| err := Some e'; buf := take (Buffered b - n) moved |},
             Some e')
        | None => (w', f', {| err := None; buf := [] |}, None)
        end
  end.

(** The loop of [Writer.Write]:
    [for len(p) > b.Available() && b.err == nil { ... }].
    It is run on [fuel]; [write_loop_exit] shows that two rounds always
    reach the exit of the loop. *)
Fixpoint write_loop (fuel : nat) (w : os.World) (f : os.File) (b : Writer)
    (p : bytes) (nn : nat) : os.World * os.File * Writer * bytes * nat :=
  match fuel with
  | O => (w, f, b, p, nn)
  | S fuel' =>
      if (Available b <? length p)%nat && bool_decide (err b = None) then
        if (Buffered b =? 0)%nat then
          (* large write, empty buffer: write directly from p *)
          let '(w', f', n, e) := os.Write w f p in
          write_loop fuel' w' f' {| err := e; buf := buf b |} (drop n p) (nn + n)%nat
        else
          let chunk := take (Available b) p in
          let '(w', f', b', _) :=
            Flush w f {| err := err b; buf := buf b ++ chunk |} in
          write_loop fuel' w' f' b' (drop (length chunk) p) (nn + length chunk)%nat
      else (w, f, b, p, nn)
  end.

(** [Writer.Write]. *)
Definition Write (w : os.World) (f : os.File) (b : Writer) (p : bytes)
  : os.World * os.File * Writer * nat * option error :=
  let '(w', f', b', p', nn) := write_loop 2 w f b p 0%nat in
  match err b' with
  | Some e => (w', f', b', nn, Some e)
  | None =>
      let chunk := take (Available b') p' in
      (w', f', {| err := None; buf := buf b' ++ chunk |},
       (nn + length chunk)%nat, None)
  end.

End bufio.

(** ** [encoding/binary], big-endian *)

Module binary.

(** [binary.BigEndian.PutUint64]: [b[0] = byte(v >> 56)], ...,
    [b[7] = byte(v)]. *)
Definition PutUint64 (v : Z) : bytes :=
  [ byte_of_Z (Z.shiftr v 56); byte_of_Z (Z.shiftr v 48);
    byte_of_Z (Z.shiftr v 40); byte_of_Z (Z.shiftr v 32);
    byte_of_Z (Z.shiftr v 24); byte_of_Z (Z.shiftr v 16);
    byte_of_Z (Z.shiftr v 8);  byte_of_Z v ].

(** [b[i]] widened to [uint64].  Go panics on an index past the end; the
    store only decodes slices of [lenWidth] bytes. *)
Definition at_ (b : bytes) (i : nat) : Z := Z_of_byte (nth i b Byte.x00).

(** [binary.BigEndian.Uint64]:
    [uint64(b[7]) | uint64(b[6])<<8 | ... | uint64(b[0])<<56]. *)
Definition Uint64 (b : bytes) : Z :=
  Z.lor (at_ b 7)
 (Z.lor (Z.shiftl (at_ b 6) 8)
 (Z.lor (Z.shiftl (at_ b 5) 16)
 (Z.lor (Z.shiftl (at_ b 4) 24)
 (Z.lor (Z.shiftl (at_ b 3) 32)
 (Z.lor (Z.shiftl (at_ b 2) 40)
 (Z.lor (Z.shiftl (at_ b 1) 48)
        (Z.shiftl (at_ b 0) 56))))))).

(** [binary.Write(w, binary.BigEndian, v)] for a [uint64] value [v] and a
    [*bufio.Writer] [w]: the eight bytes are encoded and handed to
    [w.Write] in one call, whose error is returned. *)
Definition Write (w : os.World) (f : os.File) (b : bufio.Writer) (v : Z)
  : os.World * os.File * bufio.Writer * option error :=
  let '(w', f', b', _, e) := bufio.Write w f b (PutUint64 v) in
  (w', f', b', e).

End binary.

(** ** The store *)

Module log.

Definition lenWidth : Z := 8.

(** [type store struct { *os.File; mu sync.Mutex; buf *bufio.Writer;
    size uint64 }].  The embedded file and the writer under [buf] are one
    and the same handle. *)
Record store : Type := {
  File : os.File;
  buf : bufio.Writer;
  size : Z
}.

Inductive result (A : Type) : Type :=
| Ok (a : A)
| Err (e : error).
Arguments Ok {A} a.
Arguments Err {A} e.

(** What a call of [Read] does: return a record, return an error, panic
    in [make], or be aborted in [make] for want of memory. *)
Inductive read_result : Type :=
| Record_ (record : bytes)
| Error_ (e : error)
| Panic_
| OutOfMemory_.

(** [newStore]. *)
Definition newStore (w : os.World) (f : os.File) : result store :=
  let '(fi_size, err) := os.Stat w (os.name f) in
  match err with
  | Some e => Err e
  | None =>
      Ok {| File := f; size := to_uint64 fi_size; buf := bufio.NewWriter |}
  end.

(** [Append]; the result is [(n, pos, err)]. *)
Definition Append (w : os.World) (s : store) (p : bytes)
  : os.World * store * (Z * Z * option error) :=
  let pos := size s in
  let '(w1, f1, b1, err) :=
    binary.Write w (File s) (buf s) (to_uint64 (len p)) in
  match err with
  | Some e => (w1, {| File := f1; buf := b1; size := size s |}, (0, 0, Some e))
  | None =>
      let '(w2, f2, b2, n, err) := bufio.Write w1 f1 b1 p in
      match err with
      | Some e =>
          (w2, {| File := f2; buf := b2; size := size s |}, (0, 0, Some e))
      | None =>
          let w_ := to_int64 (Z.of_nat n + lenWidth) in
          (w2,
           {| File := f2; buf := b2; size := to_uint64 (size s + to_uint64 w_) |},
           (to_uint64 w_, pos, None))
      end
  end.

(** [Read].  The slice [size] has the constant length [lenWidth]; the
    slice [record] has the length found in the file, and [make] may refuse
    it. *)
Definition Read (w : os.World) (s : store) (pos : Z)
  : os.World * store * read_result :=
  let '(w1, f1, b1, err) := bufio.Flush w (File s) (buf s) in
  let s1 := {| File := f1; buf := b1; size := size s |} in
  match err with
  | Some e => (w1, s1, Error_ e)
  | None =>
      let '(_, size_, err) :=
        os.ReadAt w1 f1 (make (Z.to_nat lenWidth)) (to_int64 pos) in
      match err with
      | Some e => (w1, s1, Error_ e)
      | None =>
          let recordSize := binary.Uint64 size_ in
          match runtime.makeslice w1 recordSize with
          | runtime.LenOutOfRange => (w1, s1, Panic_)
          | runtime.OutOfMemory => (w1, s1, OutOfMemory_)
          | runtime.Allocated =>
              let '(_, record, err) :=
                os.ReadAt w1 f1 (make (Z.to_nat recordSize))
                  (to_int64 (to_uint64 (pos + lenWidth))) in
              match err with
              | Some e => (w1, s1, Error_ e)
              | None => (w1, s1, Record_ record)
              end
          end
      end
  end.

(** [ReadAt]; the result is [(n, err)] and the new contents of [p]. *)
Definition ReadAt (w : os.World) (s : store) (p : bytes) (off : Z)
  : os.World * store * (nat * bytes * option error) :=
  let '(w1, f1, b1, err) := bufio.Flush w (File s) (buf s) in
  let s1 := {| File := f1; buf := b1; size := size s |} in
  match err with
  | Some e => (w1, s1, (0%nat, p, Some e))
  | None => (w1, s1, os.ReadAt w1 f1 p off)
  end.

(** [Close]. *)
Definition Close (w : os.World) (s : store) : os.World * store * option error :=
  let '(w1, f1, b1, err) := bufio.Flush w (File s) (buf s) in
  match err with
  | Some e => (w1, {| File := f1; buf := b1; size := size s |}, Some e)
  | None =>
      let '(f2, err) := os.Close w1 f1 in
      (w1, {| File := f2; buf := b1; size := size s |}, err)
  end.

End log.

(** ** Observations on a store

    [staged] is the content the file has once the buffered bytes are on
    storage, and [staged_end] the offset at which the next buffered byte will
    land.  Both are functions of the state; neither is a field of the code. *)

Definition staged (w : os.World) (f : os.File) (b : bufio.Writer) : bytes :=
  os.write_at (os.data w (os.ino f)) (os.cursor w f) (bufio.buf b).

Definition staged_end (w : os.World) (f : os.File) (b : bufio.Writer) : nat :=
  (os.cursor w f + length (bufio.buf b))%nat.

Definition contents (w : os.World) (s : log.store) : bytes :=
  staged w (log.File s) (log.buf s).

(** The handle writes at the end of its file: it was opened with [O_APPEND],
    or its offset is the length of the file. *)
Definition at_end (w : os.World) (f : os.File) : Prop :=
  os.cursor w f = length (os.data w (os.ino f)).

(** The framing of one record: [lenWidth] bytes of length, then the payload. *)
Definition frame (p : bytes) : bytes := binary.PutUint64 (len p) ++ p.

(** The condition of the loop in [bufio.Writer.Write]. *)
Definition loop_guard (b : bufio.Writer) (p : bytes) : bool :=
  (bufio.Available b <? length p)%nat && bool_decide (bufio.err b = None).

(** *** The flush [Read], [ReadAt] and [Close] begin with *)

Definition flush_state (w : os.World) (s : log.store) : os.World * log.store :=
  let '(w1, f1, b1, _) := bufio.Flush w (log.File s) (log.buf s) in
  (w1, {| log.File := f1; log.buf := b1; log.size := log.size s |}).

Definition flush_error (w : os.World) (s : log.store) : option error :=
  let '(_, _, _, e) := bufio.Flush w (log.File s) (log.buf s) in e.

(** What [Read] does once the flush has succeeded. *)
Definition read_record (w : os.World) (f : os.File) (pos : Z) : log.read_result :=
  let '(_, size_, err) :=
    os.ReadAt w f (make (Z.to_nat log.lenWidth)) (to_int64 pos) in
  match err with
  | Some e => log.Error_ e
  | None =>
      let recordSize := binary.Uint64 size_ in
      match runtime.makeslice w recordSize with
      | runtime.LenOutOfRange => log.Panic_
      | runtime.OutOfMemory => log.OutOfMemory_
      | runtime.Allocated =>
          let '(_, record, err) :=
            os.ReadAt w f (make (Z.to_nat recordSize))
              (to_int64 (to_uint64 (pos + log.lenWidth))) in
          match err with
          | Some e => log.Error_ e
          | None => log.Record_ record
          end
      end
  end.

(** ** How the state under a writer moves

    [evolves w f b added w' f' b'] relates the file system, the handle and
    the writer before and after a step that took the bytes [added] in: the
    handle and the name space are the same, [added] extends the staged
    content at [staged_end], and the cursor only grows, within the limit. *)

Definition same_handle (f f' : os.File) : Prop :=
  os.name f' = os.name f /\ os.ino f' = os.ino f
  /\ os.readable f' = os.readable f /\ os.writable f' = os.writable f
  /\ os.append f' = os.append f /\ os.closed f' = os.closed f.

Definition same_fs (w w' : os.World) : Prop :=
  os.paths w' = os.paths w /\ os.quota w' = os.quota w
  /\ os.memory w' = os.memory w /\ os.close_error w' = os.close_error w.

Record evolves (w : os.World) (f : os.File) (b : bufio.Writer) (added : bytes)
    (w' : os.World) (f' : os.File) (b' : bufio.Writer) : Prop := {
  ev_handle : same_handle f f';
  ev_fs : same_fs w w';
  ev_staged :
    staged w' f' b' = os.write_at (staged w f b) (staged_end w f b) added;
  ev_end : staged_end w' f' b' = (staged_end w f b + length added)%nat;
  ev_cursor : (os.cursor w f <= os.cursor w' f')%nat;
  ev_limit :
    Z.of_nat (os.cursor w' f') <= Z.max (Z.of_nat (os.cursor w f)) (os.limit w);
  ev_buffer :
    (length (bufio.buf b) <= bufio.defaultBufSize)%nat ->
    (length (bufio.buf b') <= bufio.defaultBufSize)%nat;
  ev_at_end : at_end w f -> at_end w' f'
}.

(** ** Invariants *)

(** A store whose handle writes at the end of its file.  [size] counts the
    staged bytes for as long as no write has failed, and never more than
    them; the file is within the size the system allows and the buffer
    within its capacity. *)
Record synced (w : os.World) (s : log.store) : Prop := {
  sy_at_end : at_end w (log.File s);
  sy_file : Z.of_nat (os.cursor w (log.File s)) <= maxInt64;
  sy_buffer : (length (bufio.buf (log.buf s)) <= bufio.defaultBufSize)%nat;
  sy_size : 0 <= log.size s <= len (contents w s);
  sy_exact : bufio.err (log.buf s) = None -> log.size s = len (contents w s)
}.

(** A store in working order: the handle is the open, readable and writable
    handle of the file its name resolves to, it writes at the end of that
    file, no write has failed, and [size] counts the bytes of the file and of
    the buffer. *)
Record operational (w : os.World) (s : log.store) : Prop := {
  op_open : os.closed (log.File s) = false;
  op_readable : os.readable (log.File s) = true;
  op_writable : os.writable (log.File s) = true;
  op_named : os.paths w !! os.name (log.File s) = Some (os.ino (log.File s));
  op_at_end : at_end w (log.File s);
  op_no_error : bufio.err (log.buf s) = None;
  op_buffer : (length (bufio.buf (log.buf s)) <= bufio.defaultBufSize)%nat;
  op_file : len (os.data w (os.ino (log.File s))) <= maxInt64;
  op_size : log.size s = len (contents w s)
}.

(** A handle as [os.OpenFile(name, O_RDWR|O_CREATE|O_APPEND, 0644)] returns
    it, or any open read-write handle positioned at the end of its file. *)
Record fresh_handle (w : os.World) (f : os.File) : Prop := {
  fh_open : os.closed f = false;
  fh_readable : os.readable f = true;
  fh_writable : os.writable f = true;
  fh_named : os.paths w !! os.name f = Some (os.ino f);
  fh_at_end : at_end w f;
  fh_file : len (os.data w (os.ino f)) <= maxInt64
}.

(** ** Runs of operations

    A run gives the state and the reply of every operation of a sequence.
    A panic in [Read] leaves the store as the flush left it, the mutex
    released by the deferred [Unlock], and a caller that recovers goes on
    with it.  An abort ends the program: what a run shows past an
    [OutOfMemory_] is what the operations do on the state the program left
    behind. *)

Inductive op : Type :=
| OpAppend (p : bytes)
| OpRead (pos : Z)
| OpReadAt (p : bytes) (off : Z)
| OpClose.

Inductive reply : Type :=
| ReAppend (r : Z * Z * option error)
| ReRead (r : log.read_result)
| ReReadAt (r : nat * bytes * option error)
| ReClose (err : option error).

Definition step (w : os.World) (s : log.store) (o : op)
  : os.World * log.store * reply :=
  match o with
  | OpAppend p => let '(w', s', r) := log.Append w s p in (w', s', ReAppend r)
  | OpRead pos => let '(w', s', r) := log.Read w s pos in (w', s', ReRead r)
  | OpReadAt p off =>
      let '(w', s', r) := log.ReadAt w s p off in (w', s', ReReadAt r)
  | OpClose => let '(w', s', r) := log.Close w s in (w', s', ReClose r)
  end.

Fixpoint run (w : os.World) (s : log.store) (ops : list op)
  : os.World * log.store * list reply :=
  match ops with
  | [] => (w, s, [])
  | o :: ops' =>
      let '(w1, s1, r) := step w s o in
      let '(w2, s2, rs) := run w1 s1 ops' in
      (w2, s2, r :: rs)
  end.

(** The bytes a run added to the store: [lenWidth + len(p)] for every
    [Append] that returned without error. *)
Definition appended (o : op) (r : reply) : Z :=
  match o, r with
  | OpAppend p, ReAppend (_, _, None) => log.lenWidth + len p
  | _, _ => 0
  end.

Fixpoint total_appended (ops : list op) (rs : list reply) : Z :=
  match ops, rs with
  | o :: ops', r :: rs' => appended o r + total_appended ops' rs'
  | _, _ => 0
  end.

(** The operations that only read. *)
Inductive query : Type :=
| QRead (pos : Z)
| QReadAt (p : bytes) (off : Z).

Definition op_of_query (q : query) : op :=
  match q with
  | QRead pos => OpRead pos
  | QReadAt p off => OpReadAt p off
  end.

(** A run of [Append]s only, with the results in order. *)
Fixpoint appends (w : os.World) (s : log.store) (ps : list bytes)
  : os.World * log.store * list (Z * Z * option error) :=
  match ps with
  | [] => (w, s, [])
  | p :: ps' =>
      let '(w1, s1, r) := log.Append w s p in
      let '(w2, s2, rs) := appends w1 s1 ps' in
      (w2, s2, r :: rs)
  end.

(** The bytes the frames of [ps] take. *)
Fixpoint total_frames (ps : list bytes) : Z :=
  match ps with
  | [] => 0
  | p :: ps' => log.lenWidth + len p + total_frames ps'
  end.

(** The positions the specification promises for payloads [ps] appended from
    [start] on: each is the one before plus the frame before.  This one is
    written from the specification, to be compared with what [appends]
    returns. *)
Fixpoint positions_from (start : Z) (ps : list bytes) : list Z :=
  match ps with
  | [] => []
  | p :: ps' => start :: positions_from (start + log.lenWidth + len p) ps'
  end.

(** ** Concrete stores

    An empty file [store.log], a handle on it as
    [os.OpenFile(name, O_RDWR|O_CREATE|O_APPEND, 0644)] returns it, and the
    store [newStore] builds over it. *)

Definition example_world : os.World :=
  {| os.paths := {[ "store.log"%string := 0%nat ]};
     os.inodes := {[ 0%nat := [] ]};
     os.quota := 2 ^ 30;
     os.memory := 2 ^ 33;
     os.close_error := None |}.

Definition example_handle : os.File :=
  {| os.name := "store.log"; os.ino := 0; os.offset := 0;
     os.readable := true; os.writable := true; os.append := true;
     os.closed := false |}.

Definition example_store : log.store :=
  {| log.File := example_handle; log.buf := bufio.NewWriter; log.size := 0 |}.

Definition text (s : string) : bytes := String.list_byte_of_string s.

(** The same file on a volume that accepts ten bytes, and a payload larger
    than the buffer. *)
Definition small_volume : os.World :=
  {| os.paths := {[ "store.log"%string := 0%nat ]};
     os.inodes := {[ 0%nat := [] ]};
     os.quota := 10;
     os.memory := 2 ^ 33;
     os.close_error := None |}.

Definition large_payload : bytes := replicate 5000 "x"%byte.

(** A payload whose own bytes look like a frame: eight bytes that decode to
    one, then one byte. *)
Definition nested_payload : bytes :=
  binary.PutUint64 1 ++ text "A".

(** Discharge [operational] and [fresh_handle] on concrete stores by
    evaluation. *)
Ltac operational_by_evaluation :=
  split;
  [ reflexivity | reflexivity | reflexivity | vm_compute; reflexivity
  | reflexivity | reflexivity | simpl; unfold bufio.defaultBufSize; lia
  | vm_compute; discriminate | vm_compute; reflexivity ].

Ltac fresh_handle_by_evaluation :=
  split;
  [ reflexivity | reflexivity | reflexivity | vm_compute; reflexivity
  | reflexivity | vm_compute; discriminate ].

(** Rewrites the comparisons of the goal that [lia] decides. *)
Ltac decide_cmp :=
  repeat match goal with
         | |- context [?a <=? ?b] =>
             first [ rewrite (proj2 (Z.leb_le a b)) by lia
                   | rewrite (proj2 (Z.leb_gt a b)) by lia ]
         | |- context [?a <? ?b] =>
             first [ rewrite (proj2 (Z.ltb_lt a b)) by lia
                   | rewrite (proj2 (Z.ltb_ge a b)) by lia ]
         end.

(** ** Further observations *)

(** The frames of [ps], one after the other, as they lie in the file. *)
Definition frames (ps : list bytes) : bytes := concat (map frame ps).

(** The error an operation returned, whatever the operation. *)
Definition reply_error (r : reply) : option error :=
  match r with
  | ReAppend (_, _, e) => e
  | ReRead (log.Error_ e) => Some e
  | ReRead _ => None
  | ReReadAt (_, _, e) => e
  | ReClose e => e
  end.


(** The number a sequence of bytes stands for when it is read big-endian:
    base 256, most significant byte first.  This one is written from the
    words of the specification, with no reference to [encoding/binary], to
    be compared with the length prefix [Append] stages. *)
Definition big_endian (b : bytes) : Z :=
  fold_left (fun acc x => 256 * acc + Z_of_byte x) b 0.

(** A volume that accepts 8192 bytes, and a payload of 9000 bytes. *)
Definition volume_8k : os.World :=
  {| os.paths := {[ "store.log"%string := 0%nat ]};
     os.inodes := {[ 0%nat := [] ]};
     os.quota := 8192;
     os.memory := 2 ^ 33;
     os.close_error := None |}.

Definition payload_9000 : bytes := replicate (9 * 1000) "x"%byte.

(** A system on which [close(2)] reports an input/output error. *)
Definition failing_close : os.World :=
  {| os.paths := {[ "store.log"%string := 0%nat ]};
     os.inodes := {[ 0%nat := [] ]};
     os.quota := 2 ^ 30;
     os.memory := 2 ^ 33;
     os.close_error := Some EIO |}.

(** A system that grants the process three bytes. *)
Definition low_memory : os.World :=
  {| os.paths := {[ "store.log"%string := 0%nat ]};
     os.inodes := {[ 0%nat := [] ]};
     os.quota := 2 ^ 30;
     os.memory := 3;
     os.close_error := None |}.

(** Discharges [synced] on a concrete store by evaluation. *)
Ltac synced_by_evaluation :=
  split;
  [ reflexivity | vm_compute; discriminate
  | simpl; unfold bufio.defaultBufSize; lia
  | vm_compute; split; discriminate
  | intros _; vm_compute; reflexivity ].


(** * Facts *)

(** ** The encoding *)

Lemma Z_of_byte_of_Z (z : Z) : Z_of_byte (byte_of_Z z) = z mod 2 ^ 8.
Proof.
  unfold Z_of_byte, byte_of_Z.
  assert (Hb : 0 <= z mod 256 < 256) by (apply Z.mod_pos_bound; lia).
  destruct (Byte.of_N (Z.to_N (z mod 256))) as [b|] eqn:E.
  - apply Byte.to_of_N in E. rewrite E. change (2 ^ 8) with 256. lia.
  - apply Byte.of_N_None_iff in E. lia.
Qed.

Lemma PutUint64_length (v : Z) : length (binary.PutUint64 v) = 8%nat.
Proof. reflexivity. Qed.

Lemma byte_lane_bit (v k n : Z) :
  0 <= k -> 0 <= n ->
  Z.testbit (Z.shiftl (Z.shiftr v k mod 2 ^ 8) k) n
  = (k <=? n) && (n <? k + 8) && Z.testbit v n.
Proof.
  intros Hk Hn. rewrite Z.shiftl_spec by lia.
  destruct (Z.leb_spec k n) as [Hle|Hlt]; simpl.
  - rewrite Z.testbit_mod_pow2 by lia. rewrite Z.shiftr_spec by lia.
    replace (n - k + k) with n by lia.
    destruct (Z.ltb_spec (n - k) 8), (Z.ltb_spec n (k + 8)); try lia; reflexivity.
  - apply Z.testbit_neg_r. lia.
Qed.

Lemma Uint64_PutUint64 (v : Z) :
  0 <= v < 2 ^ 64 -> binary.Uint64 (binary.PutUint64 v) = v.
Proof.
  intros Hv. unfold binary.Uint64, binary.PutUint64, binary.at_. cbn [nth].
  rewrite !Z_of_byte_of_Z.
  rewrite <- (Z.shiftl_0_r (v mod 2 ^ 8)), <- (Z.shiftr_0_r v) at 1.
  apply Z.bits_inj'. intros n Hn.
  rewrite !Z.lor_spec, !byte_lane_bit by lia.
  destruct (Z.testbit v n) eqn:Hbit; [|rewrite !andb_false_r; reflexivity].
  assert (Hlt : n < 64).
  { destruct (Z.lt_ge_cases n 64) as [|Hge]; [assumption|exfalso].
    destruct (Z.eq_dec v 0) as [->|]; [rewrite Z.testbit_0_l in Hbit; discriminate|].
    rewrite Z.bits_above_log2 in Hbit; [discriminate|lia|].
    apply Z.lt_le_trans with 64; [apply Z.log2_lt_pow2; lia|lia]. }
  assert (Hlane : 0 <= n < 8 \/ 8 <= n < 16 \/ 16 <= n < 24 \/ 24 <= n < 32 \/
                  32 <= n < 40 \/ 40 <= n < 48 \/ 48 <= n < 56 \/ 56 <= n < 64)
    by lia.
  repeat (destruct Hlane as [Hlane|Hlane]); decide_cmp; reflexivity.
Qed.

(** The eight bytes [PutUint64] lays down are the base-256 digits of the
    value, most significant first. *)
Lemma big_endian_PutUint64 (v : Z) :
  0 <= v < 2 ^ 64 -> big_endian (binary.PutUint64 v) = v.
Proof.
  intros Hv. unfold big_endian, binary.PutUint64. cbn [fold_left].
  rewrite !Z_of_byte_of_Z, !Z.shiftr_div_pow2 by lia.
  assert (Hstep : forall k, 0 <= k ->
            v / 2 ^ k = 2 ^ 8 * (v / 2 ^ (k + 8)) + (v / 2 ^ k) mod 2 ^ 8).
  { intros k Hk. rewrite Z.pow_add_r by lia.
    rewrite <- Z.div_div by lia. apply Z.div_mod. lia. }
  assert (H0 : v = 2 ^ 8 * (v / 2 ^ 8) + v mod 2 ^ 8) by (apply Z.div_mod; lia).
  assert (H1 : v / 2 ^ 8 = 2 ^ 8 * (v / 2 ^ 16) + (v / 2 ^ 8) mod 2 ^ 8)
    by (apply (Hstep 8); lia).
  assert (H2 : v / 2 ^ 16 = 2 ^ 8 * (v / 2 ^ 24) + (v / 2 ^ 16) mod 2 ^ 8)
    by (apply (Hstep 16); lia).
  assert (H3 : v / 2 ^ 24 = 2 ^ 8 * (v / 2 ^ 32) + (v / 2 ^ 24) mod 2 ^ 8)
    by (apply (Hstep 24); lia).
  assert (H4 : v / 2 ^ 32 = 2 ^ 8 * (v / 2 ^ 40) + (v / 2 ^ 32) mod 2 ^ 8)
    by (apply (Hstep 32); lia).
  assert (H5 : v / 2 ^ 40 = 2 ^ 8 * (v / 2 ^ 48) + (v / 2 ^ 40) mod 2 ^ 8)
    by (apply (Hstep 40); lia).
  assert (H6 : v / 2 ^ 48 = 2 ^ 8 * (v / 2 ^ 56) + (v / 2 ^ 48) mod 2 ^ 8)
    by (apply (Hstep 48); lia).
  assert (H7 : (v / 2 ^ 56) mod 2 ^ 8 = v / 2 ^ 56).
  { apply Z.mod_small. split; [apply Z.div_pos; lia|].
    apply Z.div_lt_upper_bound; [lia|]. change (2 ^ 56 * 2 ^ 8) with (2 ^ 64). lia. }
  rewrite H7. clear Hstep H7.
  generalize dependent (v / 2 ^ 56). generalize dependent ((v / 2 ^ 48) mod 2 ^ 8).
  generalize dependent (v / 2 ^ 48). generalize dependent ((v / 2 ^ 40) mod 2 ^ 8).
  generalize dependent (v / 2 ^ 40). generalize dependent ((v / 2 ^ 32) mod 2 ^ 8).
  generalize dependent (v / 2 ^ 32). generalize dependent ((v / 2 ^ 24) mod 2 ^ 8).
  generalize dependent (v / 2 ^ 24). generalize dependent ((v / 2 ^ 16) mod 2 ^ 8).
  generalize dependent (v / 2 ^ 16). generalize dependent ((v / 2 ^ 8) mod 2 ^ 8).
  generalize dependent (v / 2 ^ 8). generalize dependent (v mod 2 ^ 8).
  intros. lia.
Qed.

(** ** [os] *)

Lemma write_at_nil (d : bytes) (a : nat) : os.write_at d a [] = d.
Proof. reflexivity. Qed.

Lemma write_at_cons (d : bytes) (a : nat) (b : bytes) :
  b <> [] ->
  os.write_at d a b
  = take a (d ++ replicate (a - length d) Byte.x00) ++ b ++ drop (a + length b) d.
Proof. destruct b; [congruence|reflexivity]. Qed.

Lemma write_at_end (d b : bytes) : os.write_at d (length d) b = d ++ b.
Proof.
  destruct b as [|x b]; [by rewrite app_nil_r|].
  rewrite write_at_cons by done.
  rewrite Nat.sub_diag, app_nil_r, firstn_all.
  rewrite drop_ge by lia. by rewrite app_nil_r.
Qed.

Lemma length_write_at (d : bytes) (a : nat) (b : bytes) :
  b <> [] -> length (os.write_at d a b) = Nat.max (length d) (a + length b).
Proof.
  intros Hb. rewrite write_at_cons by done.
  rewrite !length_app, length_take, length_app, length_replicate, length_drop. lia.
Qed.

Lemma write_at_app (d : bytes) (a : nat) (b1 b2 : bytes) :
  os.write_at (os.write_at d a b1) (a + length b1) b2 = os.write_at d a (b1 ++ b2).
Proof.
  destruct b1 as [|x1 b1]; [by rewrite Nat.add_0_r|].
  destruct b2 as [|x2 b2]; [by rewrite app_nil_r|].
  set (c1 := x1 :: b1). set (c2 := x2 :: b2).
  assert (H1 : c1 <> []) by done. assert (H2 : c2 <> []) by done.
  assert (H12 : c1 ++ c2 <> []) by done.
  rewrite (write_at_cons _ _ c2), (write_at_cons _ _ (c1 ++ c2)) by done.
  pose proof (length_write_at d a c1 H1) as HL.
  replace (a + length c1 - length (os.write_at d a c1))%nat with 0%nat by lia.
  simpl replicate. rewrite app_nil_r.
  rewrite (write_at_cons d a c1) in * by done.
  set (pre := take a (d ++ replicate (a - length d) Byte.x00)) in *.
  assert (Hpre : length pre = a).
  { unfold pre. rewrite length_take, length_app, length_replicate. lia. }
  rewrite (app_assoc pre c1).
  rewrite take_app_length'; [|rewrite length_app; lia].
  rewrite (drop_app_add' (pre ++ c1)); [|rewrite length_app; lia].
  rewrite drop_drop, length_app.
  rewrite <- !app_assoc. do 4 f_equal. lia.
Qed.

Lemma same_handle_refl (f : os.File) : same_handle f f.
Proof. by repeat split. Qed.

Lemma same_handle_trans (f1 f2 f3 : os.File) :
  same_handle f1 f2 -> same_handle f2 f3 -> same_handle f1 f3.
Proof.
  intros (?&?&?&?&?&?) (?&?&?&?&?&?). repeat split; congruence.
Qed.

Lemma same_fs_refl (w : os.World) : same_fs w w.
Proof. by split. Qed.

Lemma same_fs_trans (w1 w2 w3 : os.World) :
  same_fs w1 w2 -> same_fs w2 w3 -> same_fs w1 w3.
Proof. intros (?&?&?&?) (?&?&?&?). repeat split; congruence. Qed.

Lemma same_fs_limit (w w' : os.World) : same_fs w w' -> os.limit w' = os.limit w.
Proof. intros (_ & Hq & _). unfold os.limit. by rewrite Hq. Qed.

(** What [make] answers depends on the memory of the system alone. *)
Lemma same_fs_makeslice (w w' : os.World) (n : Z) :
  same_fs w w' -> runtime.makeslice w' n = runtime.makeslice w n.
Proof. intros (_ & _ & Hm & _). unfold runtime.makeslice. by rewrite Hm. Qed.

(** What one [os.File.Write] does. *)
Lemma os_Write_spec (w : os.World) (f : os.File) (b : bytes) w' f' k e :
  os.Write w f b = (w', f', k, e) ->
  same_handle f f' /\ same_fs w w'
  /\ (k <= length b)%nat
  /\ (e = None -> k = length b)
  /\ os.data w' (os.ino f) = os.write_at (os.data w (os.ino f)) (os.cursor w f) (take k b)
  /\ os.cursor w' f' = (os.cursor w f + k)%nat
  /\ Z.of_nat (os.cursor w' f') <= Z.max (Z.of_nat (os.cursor w f)) (os.limit w).
Proof.
  unfold os.Write. intros H.
  destruct (os.closed f) eqn:Hc.
  { inversion H; subst. rewrite Nat.add_0_r.
    repeat split; try done; lia. }
  destruct (os.writable f) eqn:Hw; simpl in H.
  2:{ inversion H; subst. rewrite Nat.add_0_r.
      repeat split; try done; lia. }
  set (n := Z.to_nat (Z.min (len b) (Z.max 0 (os.limit w - Z.of_nat (os.cursor w f))))) in *.
  assert (Hn : (n <= length b)%nat) by (unfold n, len; lia).
  assert (Hlim : (0 < n)%nat -> Z.of_nat (os.cursor w f + n) <= os.limit w)
    by (unfold n, len; lia).
  assert (He : (if (n <? length b)%nat then Some ENOSPC else None) = None
               -> n = length b).
  { destruct (Nat.ltb_spec n (length b)); [done|lia]. }
  destruct n as [|n'] eqn:En.
  { inversion H; subst. rewrite Nat.add_0_r.
    repeat split; try done; lia. }
  inversion H; subst w' f' k e; clear H.
  assert (Hd : os.data (os.set_data w (os.ino f)
                 (os.write_at (os.data w (os.ino f)) (os.cursor w f) (take (S n') b)))
                 (os.ino f)
               = os.write_at (os.data w (os.ino f)) (os.cursor w f) (take (S n') b)).
  { unfold os.data at 1, os.set_data. simpl. by rewrite lookup_insert_eq. }
  repeat split; try done.
  - unfold os.cursor at 1. simpl. destruct (os.append f) eqn:Ha; [|done].
    rewrite Hd. unfold os.cursor. rewrite Ha, write_at_end, length_app, length_take. lia.
  - assert (Hc' : os.cursor (os.set_data w (os.ino f)
                 (os.write_at (os.data w (os.ino f)) (os.cursor w f) (take (S n') b)))
                 {| os.name := os.name f; os.ino := os.ino f;
                    os.offset := os.cursor w f + S n';
                    os.readable := os.readable f; os.writable := true;
                    os.append := os.append f; os.closed := false |}
                 = (os.cursor w f + S n')%nat).
    { unfold os.cursor at 1. simpl. destruct (os.append f) eqn:Ha; [|done].
      rewrite Hd. unfold os.cursor. rewrite Ha, write_at_end, length_app, length_take. lia. }
    rewrite Hc'. lia.
Qed.

Lemma os_Write_at_end (w : os.World) (f : os.File) (b : bytes) w' f' k e :
  os.Write w f b = (w', f', k, e) -> at_end w f -> at_end w' f'.
Proof.
  intros H Hend. apply os_Write_spec in H as (Hh & _ & Hk & _ & Hd & Hc & _).
  destruct Hh as (_ & Hi & _). unfold at_end in *.
  rewrite Hc, Hi, Hd, Hend, write_at_end, length_app, length_take. lia.
Qed.

(** A write that fits under the limit, through an open writable handle, is
    complete. *)
Lemma os_Write_ok (w : os.World) (f : os.File) (b : bytes) :
  os.closed f = false -> os.writable f = true ->
  Z.of_nat (os.cursor w f + length b) <= os.limit w ->
  exists w' f', os.Write w f b = (w', f', length b, None).
Proof.
  intros Hc Hw Hroom. unfold os.Write. rewrite Hc, Hw. simpl.
  replace (Z.to_nat (Z.min (len b) (Z.max 0 (os.limit w - Z.of_nat (os.cursor w f)))))
    with (length b) by (unfold len; lia).
  rewrite Nat.ltb_irrefl. destruct (length b); eauto.
Qed.

(** ** [evolves] *)

Lemma evolves_trans w1 f1 b1 a1 w2 f2 b2 a2 w3 f3 b3 :
  evolves w1 f1 b1 a1 w2 f2 b2 -> evolves w2 f2 b2 a2 w3 f3 b3 ->
  evolves w1 f1 b1 (a1 ++ a2) w3 f3 b3.
Proof.
  intros [Hh1 Hf1 Hs1 He1 Hc1 Hl1 Hb1 Ha1] [Hh2 Hf2 Hs2 He2 Hc2 Hl2 Hb2 Ha2].
  split.
  - eapply same_handle_trans; eassumption.
  - eapply same_fs_trans; eassumption.
  - rewrite Hs2, Hs1, He1. apply write_at_app.
  - rewrite He2, He1, length_app. lia.
  - lia.
  - rewrite (same_fs_limit _ _ Hf1) in Hl2. lia.
  - auto.
  - auto.
Qed.

Lemma evolves_refl w f b : evolves w f b [] w f b.
Proof.
  split; auto using same_handle_refl, same_fs_refl; lia.
Qed.

(** Bytes copied into the buffer. *)
Lemma evolves_copy w f e buf chunk :
  (length chunk <= bufio.defaultBufSize - length buf)%nat ->
  evolves w f {| bufio.err := e; bufio.buf := buf |} chunk
          w f {| bufio.err := e; bufio.buf := buf ++ chunk |}.
Proof.
  intros Hfit. split; auto using same_handle_refl, same_fs_refl; try lia.
  - unfold staged, staged_end. simpl. symmetry. apply write_at_app.
  - unfold staged_end. simpl. rewrite length_app. lia.
  - simpl. rewrite length_app. lia.
Qed.

(** Bytes handed to the file: [l] is what was passed to [os.File.Write]; the
    buffer goes from [B] to [B'] and [A] was taken in, in such a way that the
    stream is the same. *)
Lemma evolves_os_Write w f l w' f' k e e0 e1 B B' A :
  os.Write w f l = (w', f', k, e) ->
  take k l ++ B' = B ++ A ->
  (length B' <= length B)%nat ->
  evolves w f {| bufio.err := e0; bufio.buf := B |} A
          w' f' {| bufio.err := e1; bufio.buf := B' |}.
Proof.
  intros H Hstream Hshrink.
  pose proof (os_Write_at_end _ _ _ _ _ _ _ H) as Hend.
  apply os_Write_spec in H as (Hh & Hfs & Hk & _ & Hd & Hc & Hl).
  assert (Hi : os.ino f' = os.ino f) by (destruct Hh as (_ & ? & _); done).
  assert (Hlen : (k + length B' = length B + length A)%nat).
  { apply (f_equal length) in Hstream.
    rewrite !length_app, length_take in Hstream. lia. }
  split; auto; try lia.
  - unfold staged, staged_end. simpl. rewrite Hi, Hd, Hc.
    rewrite write_at_app, <- Hstream.
    rewrite <- (write_at_app _ _ (take k l) B'). do 2 f_equal.
    rewrite length_take. lia.
  - unfold staged_end. simpl. lia.
  - simpl. lia.
Qed.

(** ** [bufio.Writer] *)

(** [Flush] takes no bytes in: it moves buffered bytes to the file, as many
    as the file accepts, and its result is the sticky error it leaves. *)
Lemma Flush_spec w f b w' f' b' e :
  bufio.Flush w f b = (w', f', b', e) ->
  evolves w f b [] w' f' b'
  /\ bufio.err b' = e
  /\ (e = None -> bufio.buf b' = [] /\ bufio.err b = None)
  /\ (forall e0, bufio.err b = Some e0 -> (w', f', b', e) = (w, f, b, Some e0)).
Proof.
  unfold bufio.Flush, bufio.Buffered. intros H. destruct b as [eb B]. simpl in *.
  destruct eb as [e0|].
  { inversion H; subst. split; [apply evolves_refl|]. repeat split; try done.
    intros e1 [= ->]. done. }
  destruct (Nat.eqb_spec (length B) 0) as [Hz|Hnz].
  { inversion H; subst. split; [apply evolves_refl|].
    destruct B; [|done]. repeat split; done. }
  destruct (os.Write w f B) as [[[w1 f1] n] e1] eqn:Hw.
  pose proof (os_Write_spec _ _ _ _ _ _ _ Hw) as (_ & _ & Hn & Hfull & _).
  assert (Hmoved :
    take (length B - n)
      (if (0 <? n)%nat && (n <? length B)%nat then drop n B else B) = drop n B).
  { destruct (Nat.ltb_spec 0 n), (Nat.ltb_spec n (length B)); simpl.
    - rewrite take_ge; [done|rewrite length_drop; lia].
    - rewrite drop_ge by lia. replace (length B - n)%nat with 0%nat by lia. done.
    - replace n with 0%nat by lia. rewrite Nat.sub_0_r, drop_0. apply firstn_all.
    - replace n with 0%nat by lia. rewrite Nat.sub_0_r, drop_0. apply firstn_all. }
  rewrite Hmoved in H.
  destruct e1 as [e1|].
  - inversion H; subst. split; [|repeat split; done].
    eapply evolves_os_Write; [exact Hw| |rewrite length_drop; lia].
    by rewrite take_drop, app_nil_r.
  - specialize (Hfull eq_refl). subst n. rewrite Nat.ltb_irrefl in H.
    inversion H; subst. split; [|repeat split; done].
    eapply evolves_os_Write; [exact Hw| |simpl; lia].
    by rewrite firstn_all, !app_nil_r.
Qed.

(** Flushing twice is flushing once. *)
Lemma Flush_idem w f b w' f' b' e :
  bufio.Flush w f b = (w', f', b', e) ->
  bufio.Flush w' f' b' = (w', f', b', e).
Proof.
  intros H. apply Flush_spec in H as (_ & Herr & Hnone & _).
  unfold bufio.Flush, bufio.Buffered. rewrite Herr.
  destruct e as [e|]; [done|].
  destruct (Hnone eq_refl) as [-> _]. done.
Qed.

(** A flush that fits under the limit, through an open writable handle,
    succeeds. *)
Lemma Flush_ok w f b :
  bufio.err b = None -> os.closed f = false -> os.writable f = true ->
  Z.of_nat (staged_end w f b) <= os.limit w ->
  exists w' f' b', bufio.Flush w f b = (w', f', b', None).
Proof.
  intros He Hc Hw Hroom. unfold bufio.Flush, bufio.Buffered. rewrite He.
  destruct (Nat.eqb_spec (length (bufio.buf b)) 0); [eauto|].
  destruct (os_Write_ok w f (bufio.buf b) Hc Hw Hroom) as (w' & f' & ->).
  rewrite Nat.ltb_irrefl. eauto.
Qed.

(** The loop of [Write] splits [p] into the bytes taken in and the rest. *)
Lemma write_loop_spec fuel : forall w f b p nn w' f' b' p' nn',
  bufio.write_loop fuel w f b p nn = (w', f', b', p', nn') ->
  exists taken,
    p = taken ++ p' /\ nn' = (nn + length taken)%nat
    /\ evolves w f b taken w' f' b'.
Proof.
  induction fuel as [|fuel IH]; intros w f b p nn w' f' b' p' nn' H; simpl in H.
  { inversion H; subst. exists []. rewrite Nat.add_0_r.
    split; [done|]. split; [done|]. apply evolves_refl. }
  destruct ((bufio.Available b <? length p)%nat && bool_decide (bufio.err b = None))
    eqn:Hguard.
  2:{ inversion H; subst. exists []. rewrite Nat.add_0_r.
      split; [done|]. split; [done|]. apply evolves_refl. }
  destruct (Nat.eqb_spec (bufio.Buffered b) 0) as [Hempty|Hsome].
  - destruct (os.Write w f p) as [[[w1 f1] n] e1] eqn:Hw.
    apply IH in H as (taken & Hp & Hnn & Hev).
    pose proof (os_Write_spec _ _ _ _ _ _ _ Hw) as (_ & _ & Hn & _).
    exists (take n p ++ taken). split; [|split].
    + rewrite <- app_assoc, <- Hp. by rewrite take_drop.
    + rewrite length_app, length_take. lia.
    + eapply evolves_trans; [|exact Hev].
      destruct b as [eb B]. unfold bufio.Buffered in Hempty. simpl in *.
      destruct B; [|done].
      eapply evolves_os_Write; [exact Hw|by rewrite app_nil_r|done].
  - destruct (bufio.Flush w f _) as [[[w1 f1] b1] e1] eqn:Hf.
    apply IH in H as (taken & Hp & Hnn & Hev).
    apply Flush_spec in Hf as (Hev1 & _).
    exists (take (bufio.Available b) p ++ taken). split; [|split].
    + rewrite <- app_assoc, <- Hp. rewrite length_take.
      apply andb_prop in Hguard as [Hlt%Nat.ltb_lt _].
      rewrite Nat.min_l by lia. by rewrite take_drop.
    + rewrite length_app. lia.
    + eapply evolves_trans; [|exact Hev].
      rewrite <- (app_nil_r (take _ p)).
      eapply evolves_trans; [|exact Hev1].
      destruct b as [eb B]. apply evolves_copy.
      unfold bufio.Available. simpl. rewrite length_take. lia.
Qed.

Lemma Available_eq b :
  bufio.Available b = (bufio.defaultBufSize - length (bufio.buf b))%nat.
Proof. reflexivity. Qed.

Lemma loop_guard_false b p :
  loop_guard b p = false
  <-> bufio.err b <> None \/ (length p <= bufio.Available b)%nat.
Proof.
  unfold loop_guard.
  rewrite andb_false_iff, Nat.ltb_ge, bool_decide_eq_false. tauto.
Qed.

Lemma loop_guard_true b p :
  loop_guard b p = true
  <-> bufio.err b = None /\ (bufio.Available b < length p)%nat.
Proof.
  unfold loop_guard.
  rewrite andb_true_iff, Nat.ltb_lt, bool_decide_eq_true. tauto.
Qed.

Lemma write_loop_unfold fuel w f b p nn :
  bufio.write_loop (S fuel) w f b p nn =
  if loop_guard b p then
    if (bufio.Buffered b =? 0)%nat then
      let '(w', f', n, e) := os.Write w f p in
      bufio.write_loop fuel w' f' {| bufio.err := e; bufio.buf := bufio.buf b |}
        (drop n p) (nn + n)%nat
    else
      let chunk := take (bufio.Available b) p in
      let '(w', f', b', _) :=
        bufio.Flush w f {| bufio.err := bufio.err b; bufio.buf := bufio.buf b ++ chunk |} in
      bufio.write_loop fuel w' f' b' (drop (length chunk) p) (nn + length chunk)%nat
  else (w, f, b, p, nn).
Proof. reflexivity. Qed.

(** Once the condition of the loop is false the loop does nothing more. *)
Lemma write_loop_done fuel w f b p nn :
  loop_guard b p = false -> bufio.write_loop fuel w f b p nn = (w, f, b, p, nn).
Proof. intros H. destruct fuel; [done|]. by rewrite write_loop_unfold, H. Qed.

(** From an empty buffer one round reaches the exit: the direct write takes
    all of [p] or leaves an error. *)
Lemma write_loop_empty fuel w f b p nn w' f' b' p' nn' :
  bufio.Buffered b = 0%nat ->
  bufio.write_loop (S fuel) w f b p nn = (w', f', b', p', nn') ->
  loop_guard b' p' = false
  /\ bufio.write_loop 1 w f b p nn = (w', f', b', p', nn').
Proof.
  intros Hempty. rewrite !write_loop_unfold.
  destruct (loop_guard b p) eqn:Hg; [|intros [= <- <- <- <- <-]; done].
  rewrite Hempty. simpl.
  destruct (os.Write w f p) as [[[w1 f1] n] e1] eqn:Hw.
  assert (Hexit : loop_guard {| bufio.err := e1; bufio.buf := bufio.buf b |}
                    (drop n p) = false).
  { unfold loop_guard. simpl. destruct e1 as [e1|].
    - rewrite bool_decide_eq_false_2 by done. apply andb_false_r.
    - apply os_Write_spec in Hw as (_ & _ & _ & Hfull & _).
      rewrite (Hfull eq_refl), drop_all. simpl. done. }
  rewrite write_loop_done by exact Hexit.
  intros [= <- <- <- <- <-]. done.
Qed.

(** Two rounds always reach the exit of the loop, and further fuel changes
    nothing. *)
Lemma write_loop_exit fuel w f b p nn w' f' b' p' nn' :
  bufio.write_loop (S (S fuel)) w f b p nn = (w', f', b', p', nn') ->
  loop_guard b' p' = false
  /\ bufio.write_loop 2 w f b p nn = (w', f', b', p', nn').
Proof.
  rewrite (write_loop_unfold (S fuel)), (write_loop_unfold 1).
  destruct (loop_guard b p) eqn:Hg; [|intros [= <- <- <- <- <-]; done].
  destruct (Nat.eqb_spec (bufio.Buffered b) 0) as [Hempty|Hsome].
  - intros H.
    assert (H' : bufio.write_loop (S (S fuel)) w f b p nn = (w', f', b', p', nn')).
    { rewrite write_loop_unfold, Hg, Hempty. exact H. }
    apply write_loop_empty in H' as [Hexit H1]; [|done]. split; [done|].
    rewrite write_loop_unfold, Hg, Hempty in H1. simpl in H1.
    destruct (os.Write w f p) as [[[w1 f1] n] e1].
    simpl in H1. inversion H1; subst.
    by rewrite write_loop_done.
  - cbv zeta.
    destruct (bufio.Flush w f _) as [[[w1 f1] b1] e1] eqn:Hf.
    apply Flush_spec in Hf as (_ & Herr & Hnone & _).
    intros H. destruct e1 as [e1|].
    + assert (Hexit : forall q, loop_guard b1 q = false).
      { intros q. unfold loop_guard. rewrite Herr.
        rewrite bool_decide_eq_false_2 by done. apply andb_false_r. }
      rewrite write_loop_done in H by apply Hexit.
      rewrite write_loop_done by apply Hexit.
      inversion H; subst. done.
    + destruct (Hnone eq_refl) as [Hb1 _].
      assert (Hempty : bufio.Buffered b1 = 0%nat) by (unfold bufio.Buffered; by rewrite Hb1).
      apply write_loop_empty in H as [Hexit H1]; done.
Qed.

(** [Write] takes in the first [nn] bytes of [p], all of them unless it
    returns an error, and its error is the sticky error it leaves. *)
Lemma Write_spec w f b p w' f' b' nn e :
  bufio.Write w f b p = (w', f', b', nn, e) ->
  bufio.err b' = e
  /\ (nn <= length p)%nat
  /\ (e = None -> nn = length p)
  /\ evolves w f b (take nn p) w' f' b'.
Proof.
  unfold bufio.Write. intros H.
  destruct (bufio.write_loop 2 w f b p 0) as [[[[w1 f1] b1] p1] n1] eqn:Hloop.
  pose proof (write_loop_exit _ _ _ _ _ _ _ _ _ _ _ Hloop) as [Hexit _].
  apply write_loop_spec in Hloop as (taken & Hp & Hn1 & Hev). simpl in Hn1.
  destruct b1 as [e1 B1]. cbn [bufio.err bufio.buf] in H. destruct e1 as [e1|].
  - inversion H; subst. rewrite length_app.
    refine (conj _ (conj _ (conj _ _))); [done|lia|done|].
    by rewrite take_app_length.
  - apply loop_guard_false in Hexit as [Hexit|Hexit]; [done|].
    rewrite take_ge in H by exact Hexit.
    rewrite Available_eq in Hexit.
    inversion H; subst. rewrite length_app.
    refine (conj _ (conj _ (conj _ _))); [done|lia|lia|].
    replace (length taken + length p1)%nat with (length (taken ++ p1))
      by apply length_app.
    rewrite firstn_all.
    eapply evolves_trans; [exact Hev|]. apply evolves_copy. exact Hexit.
Qed.

Lemma write_loop_ok fuel : forall w f b p nn w' f' b' p' nn',
  bufio.err b = None -> os.closed f = false -> os.writable f = true ->
  Z.of_nat (staged_end w f b + length p) <= os.limit w ->
  bufio.write_loop fuel w f b p nn = (w', f', b', p', nn') ->
  bufio.err b' = None.
Proof.
  induction fuel as [|fuel IH]; intros w f b p nn w' f' b' p' nn' He Hc Hw Hroom H.
  { inversion H; subst. done. }
  rewrite write_loop_unfold in H.
  destruct (loop_guard b p) eqn:Hg; [|inversion H; subst; done].
  apply andb_prop in Hg as [Hlt%Nat.ltb_lt _].
  destruct (Nat.eqb_spec (bufio.Buffered b) 0) as [Hempty|Hsome].
  - assert (Hroom' : Z.of_nat (os.cursor w f + length p) <= os.limit w)
      by (unfold staged_end in Hroom; lia).
    destruct (os_Write_ok w f p Hc Hw Hroom') as (w1 & f1 & Hwr).
    rewrite Hwr in H. rewrite drop_all in H.
    rewrite write_loop_done in H; [inversion H; subst; done|].
    unfold loop_guard. simpl. done.
  - cbv zeta in H.
    set (b0 := {| bufio.err := bufio.err b;
                  bufio.buf := bufio.buf b ++ take (bufio.Available b) p |}) in *.
    assert (Hend0 : staged_end w f b0
                    = (staged_end w f b + length (take (bufio.Available b) p))%nat).
    { unfold staged_end, b0. simpl. rewrite length_app. lia. }
    assert (Htake : (length (take (bufio.Available b) p) <= length p)%nat)
      by (rewrite length_take; lia).
    destruct (Flush_ok w f b0) as (w1 & f1 & b1 & Hfl); [done..|lia|].
    rewrite Hfl in H.
    apply Flush_spec in Hfl as (Hev & Herr & _).
    destruct Hev as [(_&_&_&Hw1&_&Hc1) Hfs _ Hend _ _ _ _].
    eapply IH in H; [done|done|congruence|congruence|].
    rewrite (same_fs_limit _ _ Hfs), Hend, Hend0, length_drop. simpl. lia.
Qed.

(** A [Write] whose bytes all fit under the limit, through an open writable
    handle and a writer without error, succeeds. *)
Lemma Write_ok w f b p :
  bufio.err b = None -> os.closed f = false -> os.writable f = true ->
  Z.of_nat (staged_end w f b + length p) <= os.limit w ->
  exists w' f' b', bufio.Write w f b p = (w', f', b', length p, None).
Proof.
  intros He Hc Hw Hroom.
  destruct (bufio.Write w f b p) as [[[[w' f'] b'] nn] e] eqn:H.
  assert (e = None) as ->.
  { unfold bufio.Write in H.
    destruct (bufio.write_loop 2 w f b p 0) as [[[[w1 f1] b1] p1] n1] eqn:Hloop.
    apply (write_loop_ok _ _ _ _ _ _ _ _ _ _ _ He Hc Hw Hroom) in Hloop.
    rewrite Hloop in H. inversion H; subst. done. }
  pose proof (Write_spec _ _ _ _ _ _ _ _ _ H) as (_ & _ & Hfull & _).
  rewrite (Hfull eq_refl). eauto.
Qed.

(** A writer that holds an error takes nothing in. *)
Lemma Write_sticky w f b p e0 :
  bufio.err b = Some e0 -> bufio.Write w f b p = (w, f, b, 0%nat, Some e0).
Proof.
  intros He. unfold bufio.Write.
  rewrite write_loop_done; [by rewrite He|].
  unfold loop_guard. rewrite He, bool_decide_eq_false_2 by done. apply andb_false_r.
Qed.

(** ** The store *)

Lemma to_uint64_to_int64 (z : Z) : to_uint64 (to_int64 z) = to_uint64 z.
Proof.
  unfold to_uint64, to_int64.
  rewrite Zminus_mod, Zmod_mod, <- Zminus_mod. f_equal. lia.
Qed.

Lemma to_uint64_small (z : Z) : 0 <= z < 2 ^ 64 -> to_uint64 z = z.
Proof. intros H. unfold to_uint64. by rewrite Z.mod_small. Qed.

Lemma to_int64_small (z : Z) : 0 <= z <= maxInt64 -> to_int64 z = z.
Proof.
  unfold to_int64, maxInt64. intros H. rewrite Z.mod_small; lia.
Qed.

Lemma limit_le_maxInt64 (w : os.World) : os.limit w <= maxInt64.
Proof. unfold os.limit. lia. Qed.

(** [Read], [ReadAt] and [Close] in terms of the flush they start with. *)
Lemma Read_unfold w s pos :
  log.Read w s pos =
  (flush_state w s,
   match flush_error w s with
   | Some e => log.Error_ e
   | None => read_record (flush_state w s).1 (log.File (flush_state w s).2) pos
   end).
Proof.
  unfold log.Read, flush_state, flush_error, read_record.
  destruct (bufio.Flush w (log.File s) (log.buf s)) as [[[w1 f1] b1] [e|]];
    [done|]. simpl.
  destruct (os.ReadAt w1 f1 _ _) as [[n hdr] [e|]]; [done|].
  destruct (runtime.makeslice w1 (binary.Uint64 hdr)); [|done..].
  destruct (os.ReadAt w1 f1 _ _) as [[n' rec] [e|]]; done.
Qed.

Lemma ReadAt_unfold w s p off :
  log.ReadAt w s p off =
  (flush_state w s,
   match flush_error w s with
   | Some e => (0%nat, p, Some e)
   | None => os.ReadAt (flush_state w s).1 (log.File (flush_state w s).2) p off
   end).
Proof.
  unfold log.ReadAt, flush_state, flush_error.
  destruct (bufio.Flush w (log.File s) (log.buf s)) as [[[w1 f1] b1] [e|]]; done.
Qed.

Lemma Close_unfold w s :
  log.Close w s =
  match flush_error w s with
  | Some e => (flush_state w s, Some e)
  | None =>
      let '(w1, s1) := flush_state w s in
      (w1, {| log.File := (os.Close w1 (log.File s1)).1; log.buf := log.buf s1;
              log.size := log.size s1 |},
       (os.Close w1 (log.File s1)).2)
  end.
Proof.
  unfold log.Close, flush_state, flush_error.
  destruct (bufio.Flush w (log.File s) (log.buf s)) as [[[w1 f1] b1] [e|]]; [done|].
  simpl. destruct (os.Close w1 f1); done.
Qed.

(** The flush as a step of the state. *)
Lemma flush_state_spec w s w' s' :
  flush_state w s = (w', s') ->
  evolves w (log.File s) (log.buf s) [] w' (log.File s') (log.buf s')
  /\ log.size s' = log.size s
  /\ bufio.err (log.buf s') = flush_error w s
  /\ (flush_error w s = None
      -> bufio.buf (log.buf s') = [] /\ bufio.err (log.buf s) = None)
  /\ flush_state w' s' = (w', s')
  /\ flush_error w' s' = flush_error w s.
Proof.
  unfold flush_state, flush_error.
  destruct (bufio.Flush w (log.File s) (log.buf s)) as [[[w1 f1] b1] e] eqn:Hf.
  intros [= <- <-]. simpl.
  rewrite (Flush_idem _ _ _ _ _ _ _ Hf).
  apply Flush_spec in Hf as (Hev & Herr & Hnone & _). done.
Qed.

(** [Append], before any bound on the sizes is used. *)
Lemma Append_spec w s p w' s' n pos e :
  log.Append w s p = (w', s', (n, pos, e)) ->
  bufio.err (log.buf s') = e
  /\ (exists added,
        evolves w (log.File s) (log.buf s) added w' (log.File s') (log.buf s')
        /\ (e = None -> added = binary.PutUint64 (to_uint64 (len p)) ++ p))
  /\ match e with
     | Some _ => n = 0 /\ pos = 0 /\ log.size s' = log.size s
     | None =>
         n = to_uint64 (len p + log.lenWidth) /\ pos = log.size s
         /\ log.size s' = to_uint64 (log.size s + n)
     end.
Proof.
  unfold log.Append, binary.Write. intros H.
  destruct (bufio.Write w (log.File s) (log.buf s) _)
    as [[[[w1 f1] b1] n1] e1] eqn:H1.
  apply Write_spec in H1 as (Herr1 & _ & Hfull1 & Hev1).
  destruct e1 as [e1|].
  { inversion H; subst. simpl. split; [done|]. split; [|done].
    eexists. split; [exact Hev1|done]. }
  destruct (bufio.Write w1 f1 b1 p) as [[[[w2 f2] b2] n2] e2] eqn:H2.
  apply Write_spec in H2 as (Herr2 & _ & Hfull2 & Hev2).
  pose proof (evolves_trans _ _ _ _ _ _ _ _ _ _ _ Hev1 Hev2) as Hev.
  destruct e2 as [e2|].
  { inversion H; subst. simpl. split; [done|]. split; [|done].
    eexists. split; [exact Hev|done]. }
  inversion H; subst. simpl. split; [done|]. split.
  - eexists. split; [exact Hev|]. intros _.
    rewrite (Hfull1 eq_refl), (Hfull2 eq_refl), !firstn_all. done.
  - rewrite to_uint64_to_int64, (Hfull2 eq_refl). done.
Qed.

(** A frame is [lenWidth] bytes longer than its payload. *)
Lemma length_frame (p : bytes) : len (frame p) = log.lenWidth + len p.
Proof. unfold frame, len. rewrite length_app. simpl. unfold log.lenWidth. lia. Qed.

(** When the sum fits a [uint64] the arithmetic of [Append] does not wrap. *)
Lemma Append_no_wrap w s p w' s' n pos :
  0 <= log.size s -> log.size s + log.lenWidth + len p < 2 ^ 64 ->
  log.Append w s p = (w', s', (n, pos, None)) ->
  n = log.lenWidth + len p /\ pos = log.size s
  /\ log.size s' = log.size s + log.lenWidth + len p
  /\ bufio.err (log.buf s') = None
  /\ evolves w (log.File s) (log.buf s) (frame p) w' (log.File s') (log.buf s').
Proof.
  intros Hs0 Hfit H.
  apply Append_spec in H as (Herr & (added & Hev & Hadded) & -> & -> & Hsize).
  specialize (Hadded eq_refl). subst added.
  assert (Hp : 0 <= len p) by (unfold len; lia).
  unfold log.lenWidth in *.
  rewrite (to_uint64_small (len p)) in Hev by lia.
  rewrite (to_uint64_small (len p + 8)) in * by lia.
  rewrite to_uint64_small in Hsize by lia.
  repeat split; try done; try lia; apply Hev.
Qed.

(** An [Append] that succeeds found the writer without error. *)
Lemma Append_ok_no_error w s p w' s' n pos :
  log.Append w s p = (w', s', (n, pos, None)) -> bufio.err (log.buf s) = None.
Proof.
  destruct (bufio.err (log.buf s)) as [e0|] eqn:He; [|done].
  unfold log.Append, binary.Write. by rewrite (Write_sticky _ _ _ _ e0 He).
Qed.

(** ** Stores that write at the end of their file *)

Lemma staged_at_end w f b :
  at_end w f -> staged w f b = os.data w (os.ino f) ++ bufio.buf b.
Proof. intros H. unfold staged. rewrite H. apply write_at_end. Qed.

Lemma len_contents w s :
  at_end w (log.File s) ->
  len (contents w s) = Z.of_nat (staged_end w (log.File s) (log.buf s)).
Proof.
  intros H. unfold contents, len, staged_end.
  rewrite (staged_at_end _ _ _ H), length_app, H. done.
Qed.

(** Any step on the writer keeps a store synced as long as [size] is moved by
    the bytes taken in, or not at all when the step left an error. *)
Lemma synced_evolves w s added w' s' :
  synced w s ->
  evolves w (log.File s) (log.buf s) added w' (log.File s') (log.buf s') ->
  (log.size s' = log.size s
   /\ (bufio.err (log.buf s') = None -> bufio.err (log.buf s) = None /\ added = [])
   \/ log.size s' = log.size s + len added /\ bufio.err (log.buf s) = None) ->
  synced w' s'.
Proof.
  intros [Hend Hfile Hbuf Hsize Hexact] Hev Hcase.
  pose proof Hev as [_ _ _ Hend' Hc Hl Hb Ha].
  pose proof (limit_le_maxInt64 w) as Hlim.
  specialize (Ha Hend). specialize (Hb Hbuf).
  rewrite (len_contents _ _ Hend) in *.
  split; [done|lia|done|..]; rewrite (len_contents _ _ Ha), Hend'.
  - destruct Hcase as [[-> _]|[-> He]]; [lia|].
    rewrite (Hexact He). unfold len. lia.
  - destruct Hcase as [[-> Hnone]|[-> He]]; intros He'.
    + destruct (Hnone He') as [He ->]. rewrite (Hexact He). simpl. lia.
    + rewrite (Hexact He). unfold len. lia.
Qed.

Lemma synced_Append w s p w' s' n pos e :
  synced w s ->
  log.Append w s p = (w', s', (n, pos, e)) ->
  synced w' s'
  /\ (e = None ->
      n = log.lenWidth + len p /\ pos = log.size s
      /\ log.size s' = log.size s + log.lenWidth + len p
      /\ contents w' s' = contents w s ++ frame p)
  /\ (e <> None -> n = 0 /\ pos = 0 /\ log.size s' = log.size s).
Proof.
  intros Hsy H.
  pose proof (Append_spec _ _ _ _ _ _ _ _ H) as (Herr & (added & Hev & Hadded) & Hres).
  destruct e as [e|].
  - destruct Hres as (-> & -> & Hsame). split; [|done].
    eapply synced_evolves; [done|exact Hev|]. left. split; [done|].
    intros He. congruence.
  - pose proof (Append_ok_no_error _ _ _ _ _ _ _ H) as He.
    specialize (Hadded eq_refl). subst added.
    pose proof Hsy as [Hend Hfile Hbuf Hsize Hexact].
    pose proof Hev as [_ _ Hst Hend' _ Hl Hb Ha].
    pose proof (limit_le_maxInt64 w) as Hlim.
    specialize (Hb Hbuf). specialize (Hexact He).
    rewrite (len_contents _ _ Hend) in Hexact.
    assert (Hfit : log.size s + log.lenWidth + len p < 2 ^ 64).
    { unfold staged_end, log.lenWidth, len, maxInt64, bufio.defaultBufSize in *.
      rewrite length_app in Hend'. simpl in Hend'. lia. }
    destruct (Append_no_wrap _ _ _ _ _ _ _ (proj1 Hsize) Hfit H)
      as (-> & -> & Hs' & _ & Hev').
    split; [|split; [|done]].
    + eapply synced_evolves; [done|exact Hev'|]. right.
      rewrite length_frame. split; [lia|done].
    + intros _. repeat split; try done.
      destruct Hev' as [_ _ Hst' _ _ _ _ _]. unfold contents. rewrite Hst'.
      fold (contents w s).
      replace (staged_end w (log.File s) (log.buf s)) with (length (contents w s)).
      * apply write_at_end.
      * pose proof (len_contents _ _ Hend) as Hlc. unfold len in Hlc. lia.
Qed.

Lemma synced_flush w s w' s' :
  synced w s -> flush_state w s = (w', s') ->
  synced w' s' /\ log.size s' = log.size s /\ contents w' s' = contents w s.
Proof.
  intros Hsy H. apply flush_state_spec in H as (Hev & Hs & Herr & Hnone & _).
  split; [|split; [done|]].
  - eapply synced_evolves; [done|exact Hev|]. left. split; [done|].
    rewrite Herr. intros He. by destruct (Hnone He).
  - destruct Hev as [_ _ Hst _ _ _ _ _]. exact Hst.
Qed.

(** Closing the handle moves neither the cursor nor the file. *)
Lemma synced_closed w f b sz :
  synced w {| log.File := f; log.buf := b; log.size := sz |} ->
  synced w {| log.File := (os.Close w f).1; log.buf := b; log.size := sz |}.
Proof.
  assert (Hsame : forall w0 b,
            staged w0 (os.Close w f).1 b = staged w0 f b
            /\ os.cursor w0 (os.Close w f).1 = os.cursor w0 f
            /\ os.ino (os.Close w f).1 = os.ino f).
  { intros w0 b0. unfold os.Close, staged, os.cursor. destruct (os.closed f); done. }
  intros [Hend Hfile Hbuf Hsize Hexact].
  destruct (Hsame w b) as (Hst & Hcur & Hino).
  unfold contents, at_end in *. simpl in *.
  split; simpl; unfold contents, at_end; simpl; rewrite ?Hst, ?Hcur, ?Hino; done.
Qed.

(** ** Reading a record back *)

(** A positional read of bytes the file holds returns them. *)
Lemma os_ReadAt_exact w f b off pre x rest :
  os.closed f = false -> os.readable f = true ->
  os.data w (os.ino f) = pre ++ x ++ rest ->
  off = len pre -> length b = length x ->
  len pre + len x <= maxInt64 ->
  os.ReadAt w f b off = (length x, x, None).
Proof.
  intros Hc Hr Hd -> Hb Hmax. unfold os.ReadAt, len in *.
  destruct (Z.ltb_spec (Z.of_nat (length pre)) 0); [lia|].
  destruct (Nat.eqb_spec (length b) 0) as [Hz|Hnz].
  { destruct b; [|done]. destruct x; [|done]. done. }
  destruct (Z.ltb_spec maxInt64 (Z.of_nat (length pre) + Z.of_nat (length b)));
    [lia|].
  rewrite Hc, Hr, Hd, Nat2Z.id. simpl.
  rewrite drop_app_length, Hb, take_app_length, Nat.ltb_irrefl.
  rewrite drop_ge by lia. by rewrite app_nil_r.
Qed.

(** Reading at the offset of a frame returns its payload. *)
Lemma read_record_frame w f pre p rest :
  os.closed f = false -> os.readable f = true ->
  os.data w (os.ino f) = pre ++ frame p ++ rest ->
  len pre + log.lenWidth + len p <= maxInt64 ->
  runtime.makeslice w (len p) = runtime.Allocated ->
  read_record w f (len pre) = log.Record_ p.
Proof.
  intros Hc Hr Hd Hfit Hmake. unfold read_record, log.lenWidth in *.
  assert (Hpre : 0 <= len pre) by (unfold len; lia).
  assert (Hp : 0 <= len p) by (unfold len; lia).
  unfold maxInt64 in Hfit.
  rewrite to_int64_small by (unfold maxInt64; lia).
  unfold frame in Hd. rewrite <- app_assoc in Hd.
  rewrite (os_ReadAt_exact w f _ _ pre (binary.PutUint64 (len p)) (p ++ rest));
    [|done|done|done|done|done|unfold len, maxInt64 in *; simpl; lia].
  rewrite Uint64_PutUint64 by lia. rewrite Hmake.
  rewrite to_uint64_small, to_int64_small by (unfold maxInt64; lia).
  rewrite (os_ReadAt_exact w f _ _ (pre ++ binary.PutUint64 (len p)) p rest);
    [done|done|done|by rewrite <- app_assoc| | |].
  - unfold len. rewrite length_app. simpl. lia.
  - unfold make, len. rewrite length_replicate. lia.
  - unfold len, maxInt64 in *. rewrite length_app. simpl. lia.
Qed.

(** ** Stores in working order *)

Lemma operational_synced w s : operational w s -> synced w s.
Proof.
  intros [Ho Hr Hw Hn Hend He Hb Hf Hs].
  split; try done.
  all: try (rewrite Hend; exact Hf).
  all: rewrite Hs; unfold len; lia.
Qed.

(** [newStore] over a fresh handle gives a store in working order whose
    [size] is the size of the file. *)
Lemma newStore_fresh w f :
  fresh_handle w f ->
  exists s, log.newStore w f = log.Ok s
            /\ operational w s
            /\ log.File s = f /\ log.buf s = bufio.NewWriter
            /\ log.size s = len (os.data w (os.ino f)).
Proof.
  intros [Ho Hr Hw Hn Hend Hf]. unfold log.newStore, os.Stat. rewrite Hn.
  assert (H0 : 0 <= len (os.data w (os.ino f))) by (unfold len; lia).
  eexists. split; [done|]. simpl.
  rewrite to_uint64_small by (unfold maxInt64 in *; lia).
  split; [|done].
  split; simpl; try done.
  all: try (unfold bufio.defaultBufSize; lia).
  all: unfold contents; rewrite staged_at_end by done; simpl; by rewrite app_nil_r.
Qed.

(** A successful [Append] keeps a store in working order. *)
Lemma operational_Append w s p w' s' n pos :
  operational w s ->
  log.Append w s p = (w', s', (n, pos, None)) ->
  operational w' s'
  /\ n = log.lenWidth + len p /\ pos = log.size s
  /\ log.size s' = log.size s + log.lenWidth + len p
  /\ contents w' s' = contents w s ++ frame p
  /\ os.limit w' = os.limit w.
Proof.
  intros Hop H. pose proof Hop as [Ho Hr Hw Hn Hend He Hb Hf Hs].
  pose proof (Append_spec _ _ _ _ _ _ _ _ H) as (Herr & (added & Hev & _) & _).
  destruct (synced_Append _ _ _ _ _ _ _ _ (operational_synced _ _ Hop) H)
    as (Hsy & Hok & _).
  destruct (Hok eq_refl) as (-> & -> & Hsize & Hcont).
  destruct Hev as [(Hname & Hino & Hrd & Hwr & _ & Hcl) (Hpaths & Hquota & _) _ _ _ _ _ _].
  destruct Hsy as [Hend' Hfile' Hbuf' Hsize' Hexact'].
  split; [|repeat split; try done].
  - split; [congruence|congruence|congruence|congruence|done|done|done| |auto].
    unfold len. rewrite <- Hend'. exact Hfile'.
  - unfold os.limit. by rewrite Hquota.
Qed.

(** A flush that has room leaves a store in working order with its buffer
    empty and every staged byte in the file. *)
Lemma operational_flush w s :
  operational w s -> log.size s <= os.limit w ->
  exists w' s',
    flush_state w s = (w', s') /\ flush_error w s = None
    /\ operational w' s'
    /\ log.size s' = log.size s
    /\ bufio.buf (log.buf s') = []
    /\ os.data w' (os.ino (log.File s')) = contents w s.
Proof.
  intros Hop Hroom. pose proof Hop as [Ho Hr Hw Hn Hend He Hb Hf Hs].
  assert (Hroom' : Z.of_nat (staged_end w (log.File s) (log.buf s)) <= os.limit w).
  { rewrite <- len_contents by done. lia. }
  destruct (Flush_ok w (log.File s) (log.buf s) He Ho Hw Hroom')
    as (w1 & f1 & b1 & Hfl).
  assert (Hfe : flush_error w s = None) by (unfold flush_error; by rewrite Hfl).
  destruct (flush_state w s) as [w' s'] eqn:Hfs.
  destruct (synced_flush _ _ _ _ (operational_synced _ _ Hop) Hfs)
    as (Hsy & Hsize & Hcont).
  apply flush_state_spec in Hfs as (Hev & _ & Herr & Hnone & _).
  destruct (Hnone Hfe) as [Hbuf' _].
  destruct Hev as [(Hname & Hino & Hrd & Hwr & _ & Hcl) (Hpaths & Hquota & _) _ _ _ _ _ _].
  destruct Hsy as [Hend' Hfile' _ _ Hexact'].
  exists w', s'. rewrite Herr, Hfe in *.
  assert (Hdata : os.data w' (os.ino (log.File s')) = contents w s).
  { rewrite <- Hcont. unfold contents. rewrite staged_at_end by done.
    by rewrite Hbuf', app_nil_r. }
  split; [done|]. split; [done|]. split; [|done].
  split; [congruence|congruence|congruence|congruence|done|done| | |auto].
  - rewrite Hbuf'. simpl. lia.
  - unfold len. rewrite <- Hend'. exact Hfile'.
Qed.

(** [Append] succeeds when the frame fits under the limit, through an open
    writable handle and a writer without error. *)
Lemma Append_ok w s p :
  bufio.err (log.buf s) = None ->
  os.closed (log.File s) = false -> os.writable (log.File s) = true ->
  Z.of_nat (staged_end w (log.File s) (log.buf s)) + log.lenWidth + len p
    <= os.limit w ->
  exists w' s' n pos, log.Append w s p = (w', s', (n, pos, None)).
Proof.
  intros He Hc Hw Hroom. unfold log.Append, binary.Write, log.lenWidth, len in *.
  destruct (Write_ok w (log.File s) (log.buf s)
              (binary.PutUint64 (to_uint64 (Z.of_nat (length p)))) He Hc Hw)
    as (w1 & f1 & b1 & H1); [simpl; lia|].
  rewrite H1.
  apply Write_spec in H1 as (He1 & _ & _ & Hev1).
  destruct Hev1 as [(_ & _ & _ & Hw1 & _ & Hc1) Hfs1 _ Hend1 _ _ _ _].
  destruct (Write_ok w1 f1 b1 p) as (w2 & f2 & b2 & H2); [congruence..| |].
  { rewrite (same_fs_limit _ _ Hfs1), Hend1, length_take. simpl. lia. }
  rewrite H2. eauto.
Qed.

(** A write that fits in the buffer only extends the buffer. *)
Lemma Write_buffered w f b p :
  bufio.err b = None ->
  (length (bufio.buf b) + length p <= bufio.defaultBufSize)%nat ->
  bufio.Write w f b p
  = (w, f, {| bufio.err := None; bufio.buf := bufio.buf b ++ p |}, length p, None).
Proof.
  intros He Hfit. unfold bufio.Write.
  rewrite write_loop_done.
  - rewrite He. unfold bufio.Available. rewrite take_ge by lia. done.
  - unfold loop_guard, bufio.Available.
    destruct (Nat.ltb_spec (bufio.defaultBufSize - length (bufio.buf b)) (length p));
      [lia|done].
Qed.

(** An [Append] whose frame fits in the buffer only extends the buffer. *)
Lemma Append_buffered w s p :
  bufio.err (log.buf s) = None ->
  (length (bufio.buf (log.buf s)) + 8 + length p <= bufio.defaultBufSize)%nat ->
  log.Append w s p
  = (w,
     {| log.File := log.File s;
        log.buf := {| bufio.err := None;
                      bufio.buf := bufio.buf (log.buf s)
                                     ++ binary.PutUint64 (to_uint64 (len p)) ++ p |};
        log.size := to_uint64 (log.size s + (len p + log.lenWidth)) |},
     (len p + log.lenWidth, log.size s, None)).
Proof.
  intros He Hfit. unfold log.Append, binary.Write.
  assert (H8 : length (binary.PutUint64 (to_uint64 (len p))) = 8%nat) by done.
  rewrite Write_buffered; [|done|rewrite H8; lia].
  rewrite Write_buffered;
    [|done|cbn [bufio.err bufio.buf]; rewrite length_app, H8; lia].
  cbn [bufio.err bufio.buf]. rewrite to_uint64_to_int64, <- app_assoc.
  unfold bufio.defaultBufSize, log.lenWidth, len in *.
  rewrite (to_uint64_small (Z.of_nat (length p) + 8)) by lia. done.
Qed.

(** The flush leaves the memory of the system as it is. *)
Lemma flush_state_makeslice w s n :
  runtime.makeslice (flush_state w s).1 n = runtime.makeslice w n.
Proof.
  destruct (flush_state w s) as [w1 s1] eqn:Hfs.
  apply flush_state_spec in Hfs as ([_ Hsame _ _ _ _ _ _] & _).
  by apply same_fs_makeslice.
Qed.

(** On a store in working order whose flush has room, [Read] at the offset
    of a frame of the store returns its payload, when [make] has the memory
    for it. *)
Lemma operational_Read_frame w s pre p rest :
  operational w s ->
  contents w s = pre ++ frame p ++ rest ->
  log.size s <= os.limit w ->
  runtime.makeslice w (len p) = runtime.Allocated ->
  (log.Read w s (len pre)).2 = log.Record_ p.
Proof.
  intros Hop Hcont Hroom Hmake. pose proof Hop as [_ _ _ _ _ _ _ _ Hsize].
  destruct (operational_flush _ _ Hop Hroom)
    as (w2 & s2 & Hfs & Hfe & Hop2 & _ & _ & Hdata).
  rewrite <- (flush_state_makeslice w s), Hfs in Hmake.
  rewrite Read_unfold, Hfs, Hfe. cbn [fst snd] in *.
  destruct Hop2 as [Ho2 Hr2 _ _ _ _ _ _ _].
  apply (read_record_frame _ _ _ _ rest); [done|done|by rewrite Hdata| |done].
  pose proof (limit_le_maxInt64 w) as Hlim.
  pose proof (length_frame p) as Hfr.
  rewrite Hsize, Hcont in Hroom. unfold len in *.
  rewrite !length_app in Hroom. lia.
Qed.

(** ** Runs of a synced store *)

Lemma synced_Close w s w' s' e :
  synced w s -> log.Close w s = (w', s', e) ->
  synced w' s' /\ log.size s' = log.size s /\ contents w' s' = contents w s.
Proof.
  intros Hsy. rewrite Close_unfold.
  destruct (flush_state w s) as [w1 s1] eqn:Hfs.
  destruct (synced_flush _ _ _ _ Hsy Hfs) as (Hsy1 & Hsize & Hcont).
  destruct (flush_error w s) as [e0|].
  - intros [= <- <- <-]. done.
  - intros [= <- <- <-]. destruct s1 as [f1 b1 sz1].
    split; [by apply synced_closed|]. split; [done|].
    rewrite <- Hcont. unfold contents, staged, os.Close, os.cursor. simpl.
    destruct (os.closed f1); done.
Qed.

Lemma synced_step w s o w' s' r :
  synced w s -> step w s o = (w', s', r) ->
  synced w' s' /\ log.size s' = log.size s + appended o r.
Proof.
  intros Hsy. destruct o as [p|pos|p off|]; simpl.
  - destruct (log.Append w s p) as [[w1 s1] [[n pos] e]] eqn:H.
    intros [= <- <- <-].
    destruct (synced_Append _ _ _ _ _ _ _ _ Hsy H) as (Hsy' & Hok & Herr).
    split; [done|]. destruct e as [e|].
    + destruct Herr as (_ & _ & ->); [done|]. simpl. lia.
    + destruct (Hok eq_refl) as (_ & _ & -> & _). simpl. lia.
  - rewrite Read_unfold. destruct (flush_state w s) as [w1 s1] eqn:Hfs.
    intros [= <- <- <-].
    destruct (synced_flush _ _ _ _ Hsy Hfs) as (Hsy' & -> & _). split; [done|lia].
  - rewrite ReadAt_unfold. destruct (flush_state w s) as [w1 s1] eqn:Hfs.
    intros [= <- <- <-].
    destruct (synced_flush _ _ _ _ Hsy Hfs) as (Hsy' & -> & _). split; [done|lia].
  - destruct (log.Close w s) as [[w1 s1] e] eqn:H. intros [= <- <- <-].
    destruct (synced_Close _ _ _ _ _ Hsy H) as (Hsy' & -> & _). split; [done|lia].
Qed.

Lemma appended_nonneg o r : 0 <= appended o r.
Proof.
  destruct o, r as [[[? ?] [?|]]| | |]; simpl; unfold log.lenWidth, len; lia.
Qed.

Lemma synced_run ops : forall w s w' s' rs,
  synced w s -> run w s ops = (w', s', rs) ->
  synced w' s'
  /\ log.size s' = log.size s + total_appended ops rs
  /\ log.size s <= log.size s'.
Proof.
  induction ops as [|o ops IH]; intros w s w' s' rs Hsy H; simpl in H.
  { inversion H; subst. simpl. split; [done|lia]. }
  destruct (step w s o) as [[w1 s1] r] eqn:Hstep.
  destruct (run w1 s1 ops) as [[w2 s2] rs'] eqn:Hrun.
  inversion H; subst.
  destruct (synced_step _ _ _ _ _ _ Hsy Hstep) as (Hsy1 & Hs1).
  destruct (IH _ _ _ _ _ Hsy1 Hrun) as (Hsy2 & Hs2 & Hle).
  pose proof (appended_nonneg o r).
  split; [done|]. simpl. lia.
Qed.

(** ** A closed handle *)

Lemma os_Write_closed w f b :
  os.closed f = true -> os.Write w f b = (w, f, 0%nat, Some ErrClosed).
Proof. intros Hc. unfold os.Write. by rewrite Hc. Qed.

Lemma Flush_closed w f b :
  os.closed f = true -> bufio.err b = None -> bufio.buf b <> [] ->
  bufio.Flush w f b
  = (w, f, {| bufio.err := Some ErrClosed; bufio.buf := bufio.buf b |},
     Some ErrClosed).
Proof.
  intros Hc He Hne. unfold bufio.Flush, bufio.Buffered. rewrite He.
  destruct (Nat.eqb_spec (length (bufio.buf b)) 0) as [Hz|_].
  { destruct (bufio.buf b); done. }
  rewrite os_Write_closed by done. simpl.
  by rewrite Nat.sub_0_r, firstn_all.
Qed.

(** Through a closed handle, a [Write] that does not fit in the buffer
    fails. *)
Lemma Write_closed w f b p w' f' b' nn e :
  os.closed f = true -> (bufio.Available b < length p)%nat ->
  bufio.Write w f b p = (w', f', b', nn, e) -> e <> None.
Proof.
  intros Hc Hfit. destruct (bufio.err b) as [e0|] eqn:He.
  { rewrite (Write_sticky _ _ _ _ e0 He). intros [= <- <- <- <- <-]. done. }
  unfold bufio.Write. rewrite write_loop_unfold.
  assert (Hg : loop_guard b p = true).
  { unfold loop_guard. rewrite He. apply andb_true_intro. split; [|done].
    by apply Nat.ltb_lt. }
  rewrite Hg.
  assert (Hdone : forall b1 q, bufio.err b1 = Some ErrClosed ->
                               loop_guard b1 q = false).
  { intros b1 q H1. unfold loop_guard. rewrite H1.
    rewrite bool_decide_eq_false_2 by done. apply andb_false_r. }
  destruct (Nat.eqb_spec (bufio.Buffered b) 0) as [Hempty|Hsome].
  - rewrite os_Write_closed by done.
    rewrite write_loop_done by (by apply Hdone).
    simpl. intros [= <- <- <- <- <-]. done.
  - cbv zeta. rewrite Flush_closed; [|done|done|].
    + rewrite write_loop_done by (by apply Hdone).
      simpl. intros [= <- <- <- <- <-]. done.
    + simpl. unfold bufio.Buffered in Hsome. destruct (bufio.buf b); done.
Qed.

(** Through a closed handle [Append] succeeds exactly when the writer holds
    no error and the frame fits in the buffer. *)
Lemma Append_closed w s p :
  os.closed (log.File s) = true ->
  (log.Append w s p).2.2 = None
  <-> bufio.err (log.buf s) = None
      /\ (8 + length p <= bufio.Available (log.buf s))%nat.
Proof.
  intros Hc. rewrite Available_eq. split.
  - destruct (bufio.err (log.buf s)) as [e0|] eqn:He.
    { unfold log.Append, binary.Write. by rewrite (Write_sticky _ _ _ _ e0 He). }
    intros Hok. split; [done|].
    destruct (Nat.le_gt_cases (8 + length p)
                (bufio.defaultBufSize - length (bufio.buf (log.buf s))))
      as [|Hlt]; [done|exfalso].
    revert Hok. unfold log.Append, binary.Write.
    set (hdr := binary.PutUint64 (to_uint64 (len p))).
    assert (H8 : length hdr = 8%nat) by done.
    destruct (Nat.lt_ge_cases (bufio.Available (log.buf s)) 8) as [Hsmall|Hge].
    { destruct (bufio.Write w (log.File s) (log.buf s) hdr)
        as [[[[w1 f1] b1] n1] e1] eqn:H1.
      apply Write_closed in H1; [|done|by rewrite H8].
      destruct e1; done. }
    rewrite Available_eq in Hge.
    rewrite Write_buffered; [|done|rewrite H8; lia].
    destruct (bufio.Write w (log.File s) _ p) as [[[[w2 f2] b2] n2] e2] eqn:H2.
    apply Write_closed in H2; [|done|].
    + destruct e2; done.
    + rewrite Available_eq. cbn [bufio.buf]. rewrite length_app, H8. lia.
  - intros [He Hfit]. rewrite Append_buffered; [done|done|lia].
Qed.

Lemma os_ReadAt_closed w f b off :
  os.closed f = true -> b <> [] -> exists e, (os.ReadAt w f b off).2 = Some e.
Proof.
  intros Hc Hb. unfold os.ReadAt. destruct (off <? 0); [by eexists|].
  destruct (Nat.eqb_spec (length b) 0) as [Hz|_]; [by destruct b|].
  rewrite Hc. by eexists.
Qed.

(** No operation reopens the handle. *)
Lemma closed_step w s o w' s' r :
  os.closed (log.File s) = true -> step w s o = (w', s', r) ->
  os.closed (log.File s') = true.
Proof.
  intros Hc. destruct o as [p|pos|p off|]; simpl.
  - destruct (log.Append w s p) as [[w1 s1] [[n pos] e]] eqn:H.
    intros [= <- <- <-].
    apply Append_spec in H as (_ & (added & Hev & _) & _).
    destruct Hev as [(_ & _ & _ & _ & _ & Hcl) _ _ _ _ _ _ _]. congruence.
  - rewrite Read_unfold. destruct (flush_state w s) as [w1 s1] eqn:Hfs.
    intros [= <- <- <-]. apply flush_state_spec in Hfs as (Hev & _).
    destruct Hev as [(_ & _ & _ & _ & _ & Hcl) _ _ _ _ _ _ _]. congruence.
  - rewrite ReadAt_unfold. destruct (flush_state w s) as [w1 s1] eqn:Hfs.
    intros [= <- <- <-]. apply flush_state_spec in Hfs as (Hev & _).
    destruct Hev as [(_ & _ & _ & _ & _ & Hcl) _ _ _ _ _ _ _]. congruence.
  - rewrite Close_unfold. destruct (flush_state w s) as [w1 s1] eqn:Hfs.
    apply flush_state_spec in Hfs as (Hev & _).
    destruct Hev as [(_ & _ & _ & _ & _ & Hcl) _ _ _ _ _ _ _].
    destruct (flush_error w s); intros [= <- <- <-]; [congruence|].
    simpl. unfold os.Close. destruct (os.closed (log.File s1)) eqn:Hc1; done.
Qed.

Lemma closed_run ops : forall w s w' s' rs,
  os.closed (log.File s) = true -> run w s ops = (w', s', rs) ->
  os.closed (log.File s') = true.
Proof.
  induction ops as [|o ops IH]; intros w s w' s' rs Hc H; simpl in H.
  { inversion H; subst. done. }
  destruct (step w s o) as [[w1 s1] r] eqn:Hstep.
  destruct (run w1 s1 ops) as [[w2 s2] rs'] eqn:Hrun.
  inversion H; subst. eapply IH; [|exact Hrun]. by eapply closed_step.
Qed.

(** Through a closed handle nothing reaches the file system. *)
Lemma Flush_closed_world w f b w' f' b' e :
  os.closed f = true -> bufio.Flush w f b = (w', f', b', e) -> w' = w /\ f' = f.
Proof.
  intros Hc. unfold bufio.Flush. destruct (bufio.err b); [by intros [= <- <- _ _]|].
  destruct (bufio.Buffered b =? 0)%nat; [by intros [= <- <- _ _]|].
  rewrite os_Write_closed by done. simpl. by intros [= <- <- _ _].
Qed.

Lemma write_loop_closed_world fuel : forall w f b p nn w' f' b' p' nn',
  os.closed f = true ->
  bufio.write_loop fuel w f b p nn = (w', f', b', p', nn') -> w' = w /\ f' = f.
Proof.
  induction fuel as [|fuel IH]; intros w f b p nn w' f' b' p' nn' Hc;
    [by intros [= <- <- _ _ _]|].
  rewrite write_loop_unfold. destruct (loop_guard b p); [|by intros [= <- <- _ _ _]].
  destruct (bufio.Buffered b =? 0)%nat.
  - rewrite os_Write_closed by done. by apply IH.
  - cbv zeta. destruct (bufio.Flush w f _) as [[[w1 f1] b1] e1] eqn:Hf.
    apply Flush_closed_world in Hf as [-> ->]; [|done]. by apply IH.
Qed.

Lemma Write_closed_world w f b p w' f' b' nn e :
  os.closed f = true ->
  bufio.Write w f b p = (w', f', b', nn, e) -> w' = w /\ f' = f.
Proof.
  intros Hc. unfold bufio.Write.
  destruct (bufio.write_loop 2 w f b p 0) as [[[[w1 f1] b1] p1] n1] eqn:Hloop.
  apply write_loop_closed_world in Hloop as [-> ->]; [|done].
  destruct (bufio.err b1); by intros [= <- <- _ _ _].
Qed.

Lemma closed_step_world w s o w' s' r :
  os.closed (log.File s) = true -> step w s o = (w', s', r) ->
  w' = w /\ log.File s' = log.File s.
Proof.
  intros Hc.
  assert (Hflush : forall w1 s1, flush_state w s = (w1, s1) ->
                                 w1 = w /\ log.File s1 = log.File s).
  { intros w1 s1. unfold flush_state.
    destruct (bufio.Flush w (log.File s) (log.buf s)) as [[[w2 f2] b2] e2] eqn:Hf.
    apply Flush_closed_world in Hf as [-> ->]; [|done]. by intros [= <- <-]. }
  destruct o as [p|pos|p off|]; cbn [step].
  - unfold log.Append, binary.Write.
    destruct (bufio.Write w (log.File s) (log.buf s) _)
      as [[[[w1 f1] b1] n1] e1] eqn:H1.
    apply Write_closed_world in H1 as [-> ->]; [|done].
    destruct e1; [by intros [= <- <- _]|].
    destruct (bufio.Write w (log.File s) b1 p) as [[[[w2 f2] b2] n2] e2] eqn:H2.
    apply Write_closed_world in H2 as [-> ->]; [|done].
    destruct e2; by intros [= <- <- _].
  - rewrite Read_unfold. destruct (flush_state w s) as [w1 s1].
    intros [= <- <- _]. by apply Hflush.
  - rewrite ReadAt_unfold. destruct (flush_state w s) as [w1 s1].
    intros [= <- <- _]. by apply Hflush.
  - rewrite Close_unfold. destruct (flush_state w s) as [w1 s1].
    destruct (Hflush _ _ eq_refl) as [-> Hf1].
    destruct (flush_error w s); intros [= <- <- _]; [done|].
    split; [done|]. cbn [log.File]. unfold os.Close. by rewrite Hf1, Hc.
Qed.

Lemma closed_run_world ops : forall w s w' s' rs,
  os.closed (log.File s) = true -> run w s ops = (w', s', rs) ->
  w' = w /\ log.File s' = log.File s.
Proof.
  induction ops as [|o ops IH]; intros w s w' s' rs Hc H; cbn [run] in H.
  { by injection H as <- <- _. }
  destruct (step w s o) as [[w1 s1] r] eqn:Hstep.
  destruct (run w1 s1 ops) as [[w2 s2] rs'] eqn:Hrun.
  injection H as <- <- _.
  destruct (closed_step_world _ _ _ _ _ _ Hc Hstep) as [-> Hf1].
  rewrite <- Hf1 in Hc. destruct (IH _ _ _ _ _ Hc Hrun) as [-> Hf2].
  split; [done|congruence].
Qed.

(** A [Close] that returns no error leaves the handle closed. *)
Lemma Close_ok_closed w s w' s' :
  log.Close w s = (w', s', None) -> os.closed (log.File s') = true.
Proof.
  rewrite Close_unfold. destruct (flush_state w s) as [w1 s1].
  destruct (flush_error w s); [discriminate|].
  intros [= <- <- H]. simpl. unfold os.Close in *.
  destruct (os.closed (log.File s1)); [discriminate|done].
Qed.

(** ** Sequences of appends *)

Lemma total_frames_nonneg ps : 0 <= total_frames ps.
Proof. induction ps; simpl; unfold log.lenWidth, len; lia. Qed.

Lemma positions_from_length ps : forall a, length (positions_from a ps) = length ps.
Proof. induction ps as [|p ps IH]; intros a; simpl; [done|]. by rewrite IH. Qed.

Lemma positions_from_lookup ps : forall a i x,
  positions_from a ps !! i = Some x -> x = a + total_frames (take i ps).
Proof.
  induction ps as [|p ps IH]; intros a i x H; [done|].
  destruct i as [|i]; simpl in *.
  - inversion H. lia.
  - apply IH in H. lia.
Qed.

Lemma positions_from_next ps : forall a i p x y,
  ps !! i = Some p ->
  positions_from a ps !! i = Some x -> positions_from a ps !! S i = Some y ->
  y = x + log.lenWidth + len p.
Proof.
  induction ps as [|q ps IH]; intros a i p x y Hp Hx Hy; [done|].
  destruct i as [|i]; simpl in *.
  - inversion Hp; inversion Hx; subst. destruct ps; inversion Hy. done.
  - eapply IH; eassumption.
Qed.

Lemma appends_positions ps : forall w s w' s' rs,
  0 <= log.size s -> log.size s + total_frames ps < 2 ^ 64 ->
  appends w s ps = (w', s', rs) ->
  Forall (fun r => r.2 = None) rs ->
  map (fun r => r.1.2) rs = positions_from (log.size s) ps
  /\ map (fun r => r.1.1) rs = map (fun p => log.lenWidth + len p) ps
  /\ log.size s' = log.size s + total_frames ps.
Proof.
  induction ps as [|p ps IH]; intros w s w' s' rs Hs0 Hfit H Hok;
    cbn [appends total_frames positions_from map] in *.
  { inversion H; subst. simpl. split; [done|]. split; [done|lia]. }
  destruct (log.Append w s p) as [[w1 s1] [[n pos] e]] eqn:Happ.
  destruct (appends w1 s1 ps) as [[w2 s2] rs'] eqn:Hrest.
  inversion H; subst. inversion Hok as [|? ? He Hok']; subst. simpl in He. subst e.
  pose proof (total_frames_nonneg ps) as Hnn.
  assert (Hp : 0 <= len p) by (unfold len; lia).
  assert (Hfit1 : log.size s + log.lenWidth + len p < 2 ^ 64) by lia.
  destruct (Append_no_wrap _ _ _ _ _ _ _ Hs0 Hfit1 Happ) as (-> & -> & Hs1 & _).
  assert (Hs1' : 0 <= log.size s1) by (unfold log.lenWidth in *; lia).
  assert (Hfit' : log.size s1 + total_frames ps < 2 ^ 64) by lia.
  destruct (IH _ _ _ _ _ Hs1' Hfit' Hrest Hok') as (Hpos & Hn & Hsz).
  simpl. rewrite Hpos, Hn, Hsz, Hs1. repeat split; try done. lia.
Qed.

Lemma synced_appends ps : forall w s w' s' rs,
  synced w s -> appends w s ps = (w', s', rs) ->
  Forall (fun r => r.2 = None) rs ->
  map (fun r => r.1.2) rs = positions_from (log.size s) ps.
Proof.
  induction ps as [|p ps IH]; intros w s w' s' rs Hsy H Hok;
    cbn [appends positions_from] in *.
  { inversion H; subst. done. }
  destruct (log.Append w s p) as [[w1 s1] [[n pos] e]] eqn:Happ.
  destruct (appends w1 s1 ps) as [[w2 s2] rs'] eqn:Hrest.
  inversion H; subst. inversion Hok as [|? ? He Hok']; subst. simpl in He. subst e.
  destruct (synced_Append _ _ _ _ _ _ _ _ Hsy Happ) as (Hsy1 & Hres & _).
  destruct (Hres eq_refl) as (_ & -> & Hs1 & _).
  cbn [map]. rewrite (IH _ _ _ _ _ Hsy1 Hrest Hok'), Hs1. done.
Qed.

(** A [Close] that succeeds on a store in working order leaves every byte
    of the store in the file. *)
Lemma operational_Close w s w' s' :
  operational w s -> log.Close w s = (w', s', None) ->
  os.paths w' = os.paths w
  /\ log.size s' = log.size s
  /\ os.data w' (os.ino (log.File s)) = contents w s
  /\ log.size s = len (contents w s)
  /\ len (contents w s) <= maxInt64.
Proof.
  intros Hop. pose proof Hop as [_ _ _ _ _ _ _ _ Hsize].
  rewrite Close_unfold.
  destruct (flush_error w s) as [e|] eqn:Hfe; [discriminate|].
  destruct (flush_state w s) as [w1 s1] eqn:Hfs.
  intros [= <- <- _].
  destruct (synced_flush _ _ _ _ (operational_synced _ _ Hop) Hfs)
    as (Hsy & Hsz & Hcont).
  apply flush_state_spec in Hfs as (Hev & _ & _ & Hnone & _).
  destruct (Hnone Hfe) as [Hbuf _].
  destruct Hev as [(_ & Hino & _) [Hpaths _] _ _ _ _ _ _].
  destruct Hsy as [Hend Hfile _ _ _].
  assert (Hdata : os.data w1 (os.ino (log.File s)) = contents w s).
  { rewrite <- Hcont, <- Hino. unfold contents.
    rewrite staged_at_end by done. by rewrite Hbuf, app_nil_r. }
  repeat split; try done.
  rewrite <- Hdata, <- Hino. unfold len. rewrite <- Hend. exact Hfile.
Qed.

(** ** What a positional read returns *)

Lemma os_ReadAt_spec w f b off n b' :
  os.ReadAt w f b off = (n, b', None) ->
  0 <= off
  /\ length b' = length b
  /\ b' = take (length b) (drop (Z.to_nat off) (os.data w (os.ino f))).
Proof.
  unfold os.ReadAt. destruct (Z.ltb_spec off 0); [discriminate|].
  destruct (Nat.eqb_spec (length b) 0) as [Hz|Hnz].
  { intros [= <- <-]. destruct b; [|done]. done. }
  destruct (os.closed f); [discriminate|].
  destruct (os.readable f); [|discriminate]. simpl.
  destruct (maxInt64 <? off + len b); [discriminate|].
  set (got := take (length b) (drop (Z.to_nat off) (os.data w (os.ino f)))).
  destruct (Nat.ltb_spec (length got) (length b)) as [|Hge]; [discriminate|].
  intros [= <- <-].
  assert (Hlen : length got = length b).
  { pose proof (length_take_le (drop (Z.to_nat off) (os.data w (os.ino f))) (length b)).
    unfold got in *. rewrite length_take in *. lia. }
  rewrite Hlen, drop_all, app_nil_r. done.
Qed.

Lemma Z_of_byte_nonneg b : 0 <= Z_of_byte b.
Proof. unfold Z_of_byte. lia. Qed.

Lemma Uint64_nonneg b : 0 <= binary.Uint64 b.
Proof.
  unfold binary.Uint64, binary.at_.
  repeat first [ apply Z.lor_nonneg; split
               | apply Z.shiftl_nonneg
               | apply Z_of_byte_nonneg ].
Qed.

Lemma makeslice_Allocated w n :
  runtime.makeslice w n = runtime.Allocated ->
  n <= runtime.maxAlloc /\ n <= maxInt64 /\ (n = 0 \/ n <= os.memory w).
Proof.
  unfold runtime.makeslice.
  destruct (Z.ltb_spec maxInt64 n), (Z.ltb_spec runtime.maxAlloc n);
    try discriminate.
  destruct (Z.eqb_spec n 0); [lia|].
  destruct (Z.ltb_spec (os.memory w) n); [discriminate|lia].
Qed.

(** What [Read] does after its flush.  Without eight bytes at [pos] it
    fails.  A record it returns is a run of bytes of the file, as long as
    the eight bytes before it say.  When they announce more bytes than the
    file has and [make] allocates them, it fails.  And when it does not
    fail, it ends as [make] decides for the announced length: with a panic,
    with an abort, or with a record. *)
Lemma read_record_spec w f pos :
  0 <= pos < 2 ^ 64 ->
  let d := os.data w (os.ino f) in
  let announced := binary.Uint64 (take 8 (drop (Z.to_nat pos) d)) in
  (len d < pos + 8 -> exists e, read_record w f pos = log.Error_ e)
  /\ (forall record, read_record w f pos = log.Record_ record ->
        pos + 8 + len record <= len d
        /\ len record = announced
        /\ record = take (length record) (drop (Z.to_nat pos + 8) d))
  /\ (len d < pos + 8 + announced ->
      runtime.makeslice w announced = runtime.Allocated ->
      exists e, read_record w f pos = log.Error_ e)
  /\ ((exists e, read_record w f pos = log.Error_ e)
      \/ (runtime.makeslice w announced = runtime.LenOutOfRange
          /\ read_record w f pos = log.Panic_)
      \/ (runtime.makeslice w announced = runtime.OutOfMemory
          /\ read_record w f pos = log.OutOfMemory_)
      \/ (runtime.makeslice w announced = runtime.Allocated
          /\ exists record, read_record w f pos = log.Record_ record)).
Proof.
  intros Hpos d announced. subst announced. unfold read_record, log.lenWidth.
  destruct (os.ReadAt w f (make (Z.to_nat 8)) (to_int64 pos))
    as [[n hdr] [e|]] eqn:H1.
  { split; [by eexists|]. split; [discriminate|].
    split; [by eexists|]. left. by eexists. }
  apply os_ReadAt_spec in H1 as (Hoff & Hlen & Hhdr).
  assert (Hsmall : pos < 2 ^ 63).
  { unfold to_int64 in Hoff.
    destruct (Z.lt_ge_cases pos (2 ^ 63)) as [|Hge]; [done|].
    replace ((pos + 2 ^ 63) mod 2 ^ 64) with (pos - 2 ^ 63) in Hoff; [lia|].
    apply Z.mod_unique with 1; lia. }
  rewrite to_int64_small in Hhdr by (unfold maxInt64; lia).
  change (length (make (Z.to_nat 8))) with 8%nat in *.
  fold d in Hhdr. rewrite <- Hhdr.
  assert (Hfile : pos + 8 <= len d).
  { rewrite Hhdr, length_take, length_drop in Hlen. unfold len. lia. }
  split; [lia|].
  pose proof (Uint64_nonneg hdr) as Hnn.
  destruct (runtime.makeslice w (binary.Uint64 hdr)) eqn:Hmk.
  2,3: split; [discriminate|]; split; [discriminate|]; right; tauto.
  apply makeslice_Allocated in Hmk as (_ & Hfit & _).
  destruct (os.ReadAt w f (make (Z.to_nat (binary.Uint64 hdr))) _)
    as [[n2 rec] [e|]] eqn:H2.
  { split; [discriminate|]. split; [by eexists|]. left. by eexists. }
  apply os_ReadAt_spec in H2 as (Hoff2 & Hlen2 & Hrec).
  rewrite to_uint64_small in Hoff2, Hrec by lia.
  assert (Hsmall2 : pos + 8 <= maxInt64).
  { unfold to_int64, maxInt64 in *.
    destruct (Z.le_gt_cases (pos + 8) (2 ^ 63 - 1)) as [|Hgt]; [done|].
    replace ((pos + 8 + 2 ^ 63) mod 2 ^ 64) with (pos + 8 - 2 ^ 63) in Hoff2;
      [lia|].
    apply Z.mod_unique with 1; lia. }
  rewrite to_int64_small in Hrec by lia.
  unfold make in Hlen2, Hrec. rewrite length_replicate in Hlen2, Hrec.
  fold d in Hrec.
  replace (Z.to_nat (pos + 8)) with (Z.to_nat pos + 8)%nat in Hrec by lia.
  assert (Hl : length rec
               = Nat.min (Z.to_nat (binary.Uint64 hdr))
                   (length d - (Z.to_nat pos + 8))).
  { rewrite Hrec at 1. by rewrite length_take, length_drop. }
  assert (Hin : pos + 8 + len rec <= len d) by (unfold len in *; lia).
  assert (Hlr : len rec = binary.Uint64 hdr) by (unfold len; lia).
  split; [|split].
  - intros record [= <-]. split; [done|]. split; [done|].
    rewrite Hlen2. exact Hrec.
  - intros Hshort _. lia.
  - do 3 right. split; [done|]. by eexists.
Qed.

(** ** Operations that only read *)

Lemma step_query w s q :
  (step w s (op_of_query q)).1 = flush_state w s.
Proof.
  destruct q as [pos|p off]; cbn [op_of_query step].
  - rewrite Read_unfold. by destruct (flush_state w s).
  - rewrite ReadAt_unfold. by destruct (flush_state w s).
Qed.

(** On a flushed store a read answers what it answers before the flush. *)
Lemma step_query_flushed w s w1 s1 q :
  flush_state w s = (w1, s1) ->
  step w1 s1 (op_of_query q) = (w1, s1, (step w s (op_of_query q)).2).
Proof.
  intros Hfs.
  pose proof (flush_state_spec _ _ _ _ Hfs) as (_ & _ & _ & _ & Hidem & Herr).
  destruct q as [pos|p off]; cbn [op_of_query step].
  - rewrite !Read_unfold, Hidem, Herr, Hfs. done.
  - rewrite !ReadAt_unfold, Hidem, Herr, Hfs. done.
Qed.

Lemma run_queries_flushed w s w1 s1 qs :
  flush_state w s = (w1, s1) ->
  run w1 s1 (map op_of_query qs)
  = (w1, s1, map (fun q => (step w s (op_of_query q)).2) qs).
Proof.
  intros Hfs. induction qs as [|q qs IH]; [done|].
  cbn [map run]. rewrite (step_query_flushed _ _ _ _ _ Hfs), IH. done.
Qed.

(** * The claims *)

(** C1. Round trip through the buffer.  On a store in working order, if
    [Append p] succeeds and returns [pos], the volume has room for the
    bytes the store holds and [make] has the memory for a slice as long as
    [p], then [Read pos] on the resulting store, with nothing in between,
    succeeds and returns exactly [p]: the flush at the head of [Read] makes
    the buffered record visible. *)
Theorem read_after_append w s p w' s' n pos :
  operational w s ->
  log.Append w s p = (w', s', (n, pos, None)) ->
  log.size s' <= os.limit w' ->
  runtime.makeslice w' (len p) = runtime.Allocated ->
  (log.Read w' s' pos).2 = log.Record_ p.
Proof.
  intros Hop Happ Hroom Hmake.
  pose proof Hop as [_ _ _ _ _ _ _ _ Hsize].
  destruct (operational_Append _ _ _ _ _ _ _ Hop Happ)
    as (Hop' & _ & -> & _ & Hcont & _).
  rewrite Hsize.
  apply (operational_Read_frame _ _ _ _ []); [done| |done|done].
  by rewrite Hcont, app_nil_r.
Qed.

Lemma read_after_append_witness :
  (log.Read (log.Append example_world example_store (text "hello")).1.1
            (log.Append example_world example_store (text "hello")).1.2 0).2
  = log.Record_ (text "hello").
Proof.
  apply (read_after_append example_world example_store (text "hello") _ _ 13 0).
  - operational_by_evaluation.
  - vm_compute. reflexivity.
  - vm_compute. discriminate.
  - vm_compute. reflexivity.
Defined.

(** C2. Position monotonicity.  For payloads [ps] appended one after the
    other, all with success, and a total that fits a [uint64]: each position
    is the previous one plus [8 + len] of the previous payload, and the
    position of the [i]-th append is the initial [size] plus the frames of
    the appends before it. *)
Theorem append_positions w s ps w' s' rs :
  0 <= log.size s -> log.size s + total_frames ps < 2 ^ 64 ->
  appends w s ps = (w', s', rs) ->
  Forall (fun r => r.2 = None) rs ->
  let positions := map (fun r => r.1.2) rs in
  length positions = length ps
  /\ (forall i p x y,
        ps !! i = Some p -> positions !! i = Some x -> positions !! S i = Some y ->
        y = x + 8 + len p)
  /\ (forall i x,
        positions !! i = Some x -> x = log.size s + total_frames (take i ps))
  /\ positions = positions_from (log.size s) ps.
Proof.
  intros Hs0 Hfit H Hok positions.
  destruct (appends_positions _ _ _ _ _ _ Hs0 Hfit H Hok) as (Hpos & _ & _).
  unfold positions. rewrite Hpos.
  split; [apply positions_from_length|].
  split; [|split; [apply positions_from_lookup|done]].
  intros i p x y Hp Hx Hy. apply (positions_from_next _ _ _ _ _ _ Hp Hx Hy).
Qed.

Lemma append_positions_witness :
  map (fun r => r.1.2)
      (appends example_world example_store
         [text "hello"; text "hi"; []; text "log"]).2
  = [0; 13; 23; 31].
Proof.
  pose proof (append_positions example_world example_store
                [text "hello"; text "hi"; []; text "log"] _ _ _
                ltac:(vm_compute; discriminate) ltac:(vm_compute; reflexivity)
                ltac:(vm_compute; reflexivity)
                ltac:(repeat constructor)) as (_ & _ & _ & H).
  exact H.
Defined.

(** C3. Postcondition of [Append].  A successful [Append p] whose sum fits a
    [uint64] returns [8 + len p] bytes written and the position [size] had
    before, and adds [8 + len p] to [size].  The eight big-endian length
    bytes followed by [p] are staged behind everything staged before: they
    extend the staged content at [staged_end], which on a handle at the end
    of its file is plain concatenation, and when the frame fits in the buffer
    they are appended to the buffer and nothing else changes.  The bytes
    staged are also spelled out without the encoder: eight bytes whose value,
    read in base 256 with the most significant byte first, is [len p], and
    which [enc.Uint64] decodes to [len p], followed by [p].  On the empty
    store, [Append "hello"] returns [(13, 0)] and leaves the bytes
    [0 0 0 0 0 0 0 5 h e l l o] in the buffer, and [Append "hi"] after it
    returns [(10, 13)] and adds the bytes [0 0 0 0 0 0 0 2 h i]. *)
Theorem append_postcondition :
  (forall w s p w' s' n pos,
     0 <= log.size s -> log.size s + log.lenWidth + len p < 2 ^ 64 ->
     log.Append w s p = (w', s', (n, pos, None)) ->
     n = 8 + len p /\ pos = log.size s
     /\ log.size s' = log.size s + (8 + len p)
     /\ contents w' s'
        = os.write_at (contents w s) (staged_end w (log.File s) (log.buf s)) (frame p)
     /\ (at_end w (log.File s) -> contents w' s' = contents w s ++ frame p)
     /\ ((length (bufio.buf (log.buf s)) + length (frame p)
            <= bufio.defaultBufSize)%nat ->
         w' = w /\ log.File s' = log.File s
         /\ bufio.buf (log.buf s') = bufio.buf (log.buf s) ++ frame p)
     /\ (exists prefix,
           length prefix = 8%nat
           /\ big_endian prefix = len p
           /\ binary.Uint64 prefix = len p
           /\ contents w' s'
              = os.write_at (contents w s)
                  (staged_end w (log.File s) (log.buf s)) (prefix ++ p)
           /\ (at_end w (log.File s) ->
               contents w' s' = contents w s ++ prefix ++ p)
           /\ ((length (bufio.buf (log.buf s)) + 8 + length p
                  <= bufio.defaultBufSize)%nat ->
               bufio.buf (log.buf s') = bufio.buf (log.buf s) ++ prefix ++ p)))
  /\ (log.newStore example_world example_handle = log.Ok example_store
      /\ exists w1 s1 w2 s2,
           log.Append example_world example_store (text "hello")
             = (w1, s1, (13, 0, None))
           /\ log.Append w1 s1 (text "hi") = (w2, s2, (10, 13, None))
           /\ bufio.buf (log.buf s1)
              = [Byte.x00; Byte.x00; Byte.x00; Byte.x00;
                 Byte.x00; Byte.x00; Byte.x00; Byte.x05;
                 "h"; "e"; "l"; "l"; "o"]%byte
           /\ bufio.buf (log.buf s2)
              = [Byte.x00; Byte.x00; Byte.x00; Byte.x00;
                 Byte.x00; Byte.x00; Byte.x00; Byte.x05;
                 "h"; "e"; "l"; "l"; "o";
                 Byte.x00; Byte.x00; Byte.x00; Byte.x00;
                 Byte.x00; Byte.x00; Byte.x00; Byte.x02;
                 "h"; "i"]%byte
           /\ log.size s1 = 13 /\ log.size s2 = 23).
Proof.
  split.
  - intros w s p w' s' n pos Hs0 Hfit H.
    pose proof (Append_ok_no_error _ _ _ _ _ _ _ H) as He.
    destruct (Append_no_wrap _ _ _ _ _ _ _ Hs0 Hfit H) as (-> & -> & Hs' & _ & Hev).
    pose proof Hev as [_ _ Hst _ _ _ _ _].
    unfold log.lenWidth in *.
    assert (Hp : 0 <= len p) by (unfold len; lia).
    assert (Hend : at_end w (log.File s) -> contents w' s' = contents w s ++ frame p).
    { intros Hend. unfold contents at 1. rewrite Hst.
      fold (contents w s).
      replace (staged_end w (log.File s) (log.buf s)) with (length (contents w s)).
      - apply write_at_end.
      - pose proof (len_contents _ _ Hend) as Hlc. unfold len in Hlc. lia. }
    assert (Hbuf : (length (bufio.buf (log.buf s)) + 8 + length p
                      <= bufio.defaultBufSize)%nat ->
                   w' = w /\ log.File s' = log.File s
                   /\ bufio.buf (log.buf s') = bufio.buf (log.buf s) ++ frame p).
    { intros Hfits. pose proof (Append_buffered w s p He Hfits) as Hb.
      rewrite (to_uint64_small (len p)) in Hb by lia.
      rewrite Hb in H. injection H as <- <- _. done. }
    split; [done|]. split; [done|]. split; [lia|]. split; [exact Hst|].
    split; [exact Hend|]. split.
    { intros Hfits. apply Hbuf. unfold frame in Hfits.
      rewrite length_app, PutUint64_length in Hfits. lia. }
    exists (binary.PutUint64 (len p)).
    split; [done|]. split; [apply big_endian_PutUint64; lia|].
    split; [apply Uint64_PutUint64; lia|]. split; [exact Hst|].
    split; [exact Hend|]. intros Hfits. by apply Hbuf.
  - split; [vm_compute; reflexivity|].
    do 4 eexists. split; [vm_compute; reflexivity|].
    split; [vm_compute; reflexivity|].
    split; [vm_compute; reflexivity|].
    split; [vm_compute; reflexivity|].
    split; vm_compute; reflexivity.
Qed.

Lemma append_postcondition_witness :
  exists prefix,
    length prefix = 8%nat /\ big_endian prefix = 5
    /\ contents (log.Append example_world example_store (text "hello")).1.1
                (log.Append example_world example_store (text "hello")).1.2
       = contents example_world example_store ++ prefix ++ text "hello".
Proof.
  destruct (proj1 append_postcondition example_world example_store
              (text "hello") _ _ 13 0
              ltac:(vm_compute; discriminate) ltac:(vm_compute; reflexivity)
              ltac:(vm_compute; reflexivity))
    as (_ & _ & _ & _ & _ & _ & prefix & Hlen & Hbe & _ & _ & Hend & _).
  exists prefix. split; [exact Hlen|]. split; [exact Hbe|].
  apply Hend. reflexivity.
Defined.

(** C4, as stated, fails: [size] is not always the length the file has once
    the buffer is flushed.  On a volume that accepts 8192 bytes, [Append] of
    9000 bytes on the empty store fails with [ENOSPC] after 8192 bytes of
    the frame have reached the file.  [size] is still [0], the buffer is
    empty, so there is nothing left to flush, and the file is 8192 bytes
    long. *)
Lemma size_behind_file_after_failed_append :
  log.newStore volume_8k example_handle = log.Ok example_store
  /\ (log.Append volume_8k example_store payload_9000).2 = (0, 0, Some ENOSPC)
  /\ log.size (log.Append volume_8k example_store payload_9000).1.2 = 0
  /\ bufio.buf (log.buf (log.Append volume_8k example_store payload_9000).1.2)
     = []
  /\ len (os.data (log.Append volume_8k example_store payload_9000).1.1 0)
     = 8192
  /\ len (contents (log.Append volume_8k example_store payload_9000).1.1
                   (log.Append volume_8k example_store payload_9000).1.2)
     = 8192.
Proof. repeat split; vm_compute; reflexivity. Qed.

(** C4, amended.  For a store built by [newStore] over a handle that writes
    at the end of its file, and any sequence of [Append], [Read], [ReadAt]
    and [Close], failed ones included: [size] starts as the size of the
    file, is at every point that size plus [8 + len p] for every [Append]
    that succeeded, and never decreases.  It is never more than the byte
    length the file has once the buffer is flushed, and it is that length
    for as long as the writer holds no write error. *)
Theorem size_invariant w0 f s0 ops w s rs :
  fresh_handle w0 f ->
  log.newStore w0 f = log.Ok s0 ->
  run w0 s0 ops = (w, s, rs) ->
  log.size s0 = len (os.data w0 (os.ino f))
  /\ log.size s = len (os.data w0 (os.ino f)) + total_appended ops rs
  /\ log.size s0 <= log.size s
  /\ (forall o, log.size s <= log.size (step w s o).1.2)
  /\ log.size s <= len (contents w s)
  /\ (bufio.err (log.buf s) = None -> log.size s = len (contents w s)).
Proof.
  intros Hf Hnew Hrun.
  destruct (newStore_fresh _ _ Hf) as (s0' & Hnew' & Hop & _ & _ & Hs0).
  rewrite Hnew in Hnew'. injection Hnew' as <-.
  destruct (synced_run _ _ _ _ _ _ (operational_synced _ _ Hop) Hrun)
    as (Hsy & Hsize & Hle).
  split; [done|]. split; [lia|]. split; [done|]. split; [|split].
  - intros o. destruct (step w s o) as [[w1 s1] r] eqn:Hstep.
    destruct (synced_step _ _ _ _ _ _ Hsy Hstep) as (_ & Hs1).
    pose proof (appended_nonneg o r). simpl. lia.
  - apply Hsy.
  - apply Hsy.
Qed.

Lemma size_invariant_witness :
  log.size (run example_world example_store
              [OpAppend (text "hello"); OpRead 0; OpAppend (text "hi");
               OpReadAt (make 3) 8; OpClose; OpRead 0]).1.2
  = 0 + 23.
Proof.
  pose proof (size_invariant example_world example_handle example_store
                [OpAppend (text "hello"); OpRead 0; OpAppend (text "hi");
                 OpReadAt (make 3) 8; OpClose; OpRead 0] _ _ _
                ltac:(fresh_handle_by_evaluation)
                ltac:(vm_compute; reflexivity)
                ltac:(vm_compute; reflexivity)) as (_ & H & _).
  exact H.
Defined.

(** C5, as stated, fails: [Read] does not know where records begin.  On the
    empty store one record is appended, at position [0], the only position
    handed out.  Position [8] lies inside that record, yet [Read 8] returns
    without error, with the byte that happens to follow the eight bytes it
    found there. *)
Lemma read_inside_record_returns_bytes :
  (log.Append example_world example_store nested_payload).2 = (17, 0, None)
  /\ (log.Read (log.Append example_world example_store nested_payload).1.1
               (log.Append example_world example_store nested_payload).1.2 8).2
     = log.Record_ (text "A").
Proof. split; vm_compute; reflexivity. Qed.

(** C5, amended.  [Read pos] returns an error whenever the file, after the
    flush, does not hold eight bytes from [pos] on, which covers every
    position at or beyond the end of the file.  A record it returns is never
    padded or cut: it is the run of bytes of the file that follows those
    eight bytes, as long as they say, and lies within the file.  So when the
    eight bytes announce more bytes than the file holds after them, no
    record is returned; an error is, when [make] allocates the announced
    length.  In every case [Read] either returns an error or ends as [make]
    decides for the announced length: it panics when the length is out of
    range, is aborted when the system does not grant the memory, and returns
    a record otherwise. *)
Theorem read_range_checked w s pos :
  0 <= pos < 2 ^ 64 ->
  let w' := (log.Read w s pos).1.1 in
  let d := os.data w' (os.ino (log.File (log.Read w s pos).1.2)) in
  let announced := binary.Uint64 (take 8 (drop (Z.to_nat pos) d)) in
  (len d < pos + 8 -> exists e, (log.Read w s pos).2 = log.Error_ e)
  /\ (forall record, (log.Read w s pos).2 = log.Record_ record ->
        pos + 8 + len record <= len d
        /\ len record = announced
        /\ record = take (length record) (drop (Z.to_nat pos + 8) d))
  /\ (len d < pos + 8 + announced ->
      forall record, (log.Read w s pos).2 <> log.Record_ record)
  /\ (len d < pos + 8 + announced ->
      runtime.makeslice w' announced = runtime.Allocated ->
      exists e, (log.Read w s pos).2 = log.Error_ e)
  /\ ((exists e, (log.Read w s pos).2 = log.Error_ e)
      \/ (runtime.makeslice w' announced = runtime.LenOutOfRange
          /\ (log.Read w s pos).2 = log.Panic_)
      \/ (runtime.makeslice w' announced = runtime.OutOfMemory
          /\ (log.Read w s pos).2 = log.OutOfMemory_)
      \/ (runtime.makeslice w' announced = runtime.Allocated
          /\ exists record, (log.Read w s pos).2 = log.Record_ record)).
Proof.
  intros Hpos. rewrite Read_unfold.
  destruct (flush_state w s) as [w1 s1]. cbn [fst snd].
  destruct (flush_error w s) as [e|].
  { split; [by eexists|]. split; [discriminate|]. split; [discriminate|].
    split; [by eexists|]. left. by eexists. }
  destruct (read_record_spec w1 (log.File s1) pos Hpos) as (H1 & H2 & H3 & H4).
  split; [exact H1|]. split; [exact H2|]. split; [|split; [exact H3|exact H4]].
  intros Hshort record Hr. destruct (H2 record Hr) as (Hin & Hlen & _). lia.
Qed.

Lemma read_range_checked_witness :
  exists e,
    (log.Read (log.Append example_world example_store (text "hello")).1.1
              (log.Append example_world example_store (text "hello")).1.2 6).2
    = log.Error_ e.
Proof.
  apply (proj1 (read_range_checked
                  (log.Append example_world example_store (text "hello")).1.1
                  (log.Append example_world example_store (text "hello")).1.2 6
                  ltac:(lia))).
  vm_compute. reflexivity.
Defined.

(** C6, as stated, fails: after a successful [Close] on the empty store,
    [Append] of a small payload returns without error.  The bytes stay in the
    buffer, which no flush can empty any more, and [size] is advanced. *)
Lemma append_after_close_succeeds :
  (log.Close example_world example_store).2 = None
  /\ (log.Append (log.Close example_world example_store).1.1
                 (log.Close example_world example_store).1.2 (text "x")).2
     = (9, 0, None)
  /\ log.size
       (log.Append (log.Close example_world example_store).1.1
                   (log.Close example_world example_store).1.2 (text "x")).1.2
     = 9.
Proof. repeat split; vm_compute; reflexivity. Qed.

(** C6, amended.  After a successful [Close], whatever operations follow,
    nothing reaches the file system any more and the handle stays closed.
    A second [Close] returns an error, [Read] returns an error at every
    position, and [ReadAt] returns an error for every destination that is
    not empty (an empty one is filled without touching the file).
    [Append] returns an error exactly when the writer already holds one or
    the frame does not fit in what is left of the buffer; right after the
    [Close] the buffer is empty and the writer holds no error.  When it
    does not return an error, [Append] returns [8 + len p] and [size], puts
    the eight length bytes and [p] at the end of the buffer, from where
    nothing reaches the file, and advances [size] by [8 + len p] in
    [uint64] arithmetic. *)
Theorem after_close w s w1 s1 ops w2 s2 rs :
  log.Close w s = (w1, s1, None) ->
  run w1 s1 ops = (w2, s2, rs) ->
  (bufio.err (log.buf s1) = None /\ bufio.buf (log.buf s1) = [])
  /\ (w2 = w1 /\ os.closed (log.File s2) = true)
  /\ (exists e, (log.Close w2 s2).2 = Some e)
  /\ (forall pos, exists e, (log.Read w2 s2 pos).2 = log.Error_ e)
  /\ (forall p off, p <> [] -> exists e, (log.ReadAt w2 s2 p off).2.2 = Some e)
  /\ (forall off, 0 <= off -> flush_error w2 s2 = None ->
      (log.ReadAt w2 s2 [] off).2 = (0%nat, [], None))
  /\ (forall p,
        (log.Append w2 s2 p).2.2 = None
        <-> bufio.err (log.buf s2) = None
            /\ (8 + length p <= bufio.Available (log.buf s2))%nat)
  /\ (forall p,
        (log.Append w2 s2 p).2.2 = None ->
        log.Append w2 s2 p
        = (w2,
           {| log.File := log.File s2;
              log.buf := {| bufio.err := None;
                            bufio.buf := bufio.buf (log.buf s2) ++ frame p |};
              log.size := to_uint64 (log.size s2 + (8 + len p)) |},
           (8 + len p, log.size s2, None))).
Proof.
  intros Hclose Hrun.
  pose proof (Close_ok_closed _ _ _ _ Hclose) as Hc1.
  pose proof (closed_run _ _ _ _ _ _ Hc1 Hrun) as Hc2.
  assert (Hflushed : forall w3 s3, flush_state w2 s2 = (w3, s3) ->
                                   os.closed (log.File s3) = true).
  { intros w3 s3 Hfs. apply flush_state_spec in Hfs as (Hev & _).
    destruct Hev as [(_ & _ & _ & _ & _ & Hcl) _ _ _ _ _ _ _]. congruence. }
  split; [|split; [|split; [|split; [|split; [|split; [|split]]]]]].
  - revert Hclose. rewrite Close_unfold.
    destruct (flush_error w s) as [e|] eqn:Hfe; [discriminate|].
    destruct (flush_state w s) as [w0 s0] eqn:Hfs.
    intros [= _ <- _]. simpl.
    apply flush_state_spec in Hfs as (_ & _ & Herr & Hnone & _).
    destruct (Hnone Hfe) as [Hbuf _]. by rewrite Herr, Hfe.
  - split; [|done]. by destruct (closed_run_world _ _ _ _ _ _ Hc1 Hrun).
  - rewrite Close_unfold. destruct (flush_error w2 s2) as [e|]; [by eexists|].
    destruct (flush_state w2 s2) as [w3 s3] eqn:Hfs. simpl.
    unfold os.Close. rewrite (Hflushed _ _ eq_refl). by eexists.
  - intros pos. rewrite Read_unfold.
    destruct (flush_error w2 s2) as [e|]; [by eexists|].
    destruct (flush_state w2 s2) as [w3 s3] eqn:Hfs. cbn [fst snd].
    unfold read_record.
    destruct (os_ReadAt_closed w3 (log.File s3)
                (make (Z.to_nat log.lenWidth)) (to_int64 pos)
                (Hflushed _ _ eq_refl)) as (e & He); [done|].
    destruct (os.ReadAt w3 (log.File s3) _ _) as [[n hdr] err]. simpl in He.
    subst err. by eexists.
  - intros p off Hp. rewrite ReadAt_unfold.
    destruct (flush_error w2 s2) as [e|]; [by eexists|].
    destruct (flush_state w2 s2) as [w3 s3] eqn:Hfs. cbn [fst snd].
    apply os_ReadAt_closed; [exact (Hflushed _ _ eq_refl)|done].
  - intros off Hoff Hfe. rewrite ReadAt_unfold, Hfe. cbn [snd].
    unfold os.ReadAt. by destruct (Z.ltb_spec off 0); [lia|].
  - intros p. by apply Append_closed.
  - intros p Hok. apply (Append_closed w2 s2 p Hc2) in Hok as [He Hfit].
    rewrite Available_eq in Hfit.
    rewrite Append_buffered; [|done|lia].
    assert (Hp : 0 <= len p) by (unfold len; lia).
    unfold frame, log.lenWidth. rewrite (to_uint64_small (len p)).
    + by rewrite (Z.add_comm (len p) 8).
    + unfold bufio.defaultBufSize, len in *. lia.
Qed.

Lemma after_close_witness :
  exists e,
    (log.Read
       (run (log.Close example_world example_store).1.1
            (log.Close example_world example_store).1.2
            [OpAppend (text "x")]).1.1
       (run (log.Close example_world example_store).1.1
            (log.Close example_world example_store).1.2
            [OpAppend (text "x")]).1.2 0).2
    = log.Error_ e.
Proof.
  pose proof (after_close example_world example_store _ _
                [OpAppend (text "x")] _ _ _
                ltac:(vm_compute; reflexivity)
                ltac:(vm_compute; reflexivity)) as (_ & _ & _ & H & _).
  exact (H 0).
Defined.

(** C7. Reopen consistency.  When a store in working order is closed with
    success, [newStore] over any handle opened under the same name succeeds
    and its [size] is the size the file has on storage, which is the final
    [size] of the closed store; over a fresh handle the new store is in
    working order and a run of successful appends takes its positions from
    that size on.  When the size query fails, [newStore] returns the error
    and no store. *)
Theorem reopen_consistency :
  (forall w s w' s' f2,
     operational w s ->
     log.Close w s = (w', s', None) ->
     os.name f2 = os.name (log.File s) ->
     exists s2,
       log.newStore w' f2 = log.Ok s2
       /\ log.size s2 = log.size s'
       /\ log.size s2 = len (os.data w' (os.ino (log.File s)))
       /\ (fresh_handle w' f2 ->
           operational w' s2
           /\ forall ps w'' s'' rs,
                appends w' s2 ps = (w'', s'', rs) ->
                Forall (fun r => r.2 = None) rs ->
                map (fun r => r.1.2) rs = positions_from (log.size s') ps))
  /\ (forall w f sz e,
        os.Stat w (os.name f) = (sz, Some e) -> log.newStore w f = log.Err e).
Proof.
  split.
  - intros w s w' s' f2 Hop Hclose Hname.
    pose proof Hop as [_ _ _ Hnamed _ _ _ _ _].
    destruct (operational_Close _ _ _ _ Hop Hclose)
      as (Hpaths & Hsize & Hdata & Hlen & Hmax).
    assert (Hnn : 0 <= len (contents w s)) by (unfold len; lia).
    assert (Hnew : log.newStore w' f2
                   = log.Ok {| log.File := f2; log.size := len (contents w s);
                               log.buf := bufio.NewWriter |}).
    { unfold log.newStore, os.Stat. rewrite Hname, Hpaths, Hnamed, Hdata.
      rewrite to_uint64_small by (unfold maxInt64 in *; lia). done. }
    eexists. split; [exact Hnew|]. simpl.
    split; [lia|]. split; [by rewrite Hdata|].
    intros Hfresh.
    destruct (newStore_fresh _ _ Hfresh) as (s2 & Hnew2 & Hop2 & _).
    rewrite Hnew in Hnew2. injection Hnew2 as <-.
    split; [done|]. intros ps w'' s'' rs Happ Hok.
    rewrite (synced_appends _ _ _ _ _ _ (operational_synced _ _ Hop2) Happ Hok).
    simpl. by rewrite Hsize, Hlen.
  - intros w f sz e H. unfold log.newStore. by rewrite H.
Qed.

Lemma reopen_consistency_witness :
  exists s2,
    log.newStore
      (log.Close (log.Append example_world example_store (text "hello")).1.1
                 (log.Append example_world example_store (text "hello")).1.2).1.1
      example_handle = log.Ok s2
    /\ log.size s2 = 13.
Proof.
  destruct (proj1 reopen_consistency
              (log.Append example_world example_store (text "hello")).1.1
              (log.Append example_world example_store (text "hello")).1.2
              _ _ example_handle
              ltac:(operational_by_evaluation)
              ltac:(vm_compute; reflexivity)
              ltac:(reflexivity)) as (s2 & Hnew & Hsize & _).
  exists s2. split; [exact Hnew|exact Hsize].
Defined.

(** C8. Error atomicity of [Append].  Whenever [Append] returns an error, it
    is the error of the buffered write of the length prefix or, that one
    having succeeded, of the payload; both other results are zero and [size]
    is what it was.  The writer keeps the error, so every later [Append]
    fails with it and leaves the store as it is. *)
Theorem append_failure_atomic w s p w' s' n pos e :
  log.Append w s p = (w', s', (n, pos, Some e)) ->
  n = 0 /\ pos = 0 /\ log.size s' = log.size s
  /\ (let '(w1, f1, b1, e1) :=
        binary.Write w (log.File s) (log.buf s) (to_uint64 (len p)) in
      e1 = Some e \/ e1 = None /\ (bufio.Write w1 f1 b1 p).2 = Some e)
  /\ bufio.err (log.buf s') = Some e
  /\ forall p2, log.Append w' s' p2 = (w', s', (0, 0, Some e)).
Proof.
  intros H.
  pose proof (Append_spec _ _ _ _ _ _ _ _ H) as (Herr & _ & -> & -> & Hsize).
  split; [done|]. split; [done|]. split; [done|]. split; [|split; [done|]].
  - revert H. unfold log.Append.
    destruct (binary.Write w (log.File s) (log.buf s) _) as [[[w1 f1] b1] [e1|]].
    + intros [= _ _ ->]. by left.
    + destruct (bufio.Write w1 f1 b1 p) as [[[[w2 f2] b2] n2] [e2|]].
      * intros [= _ _ ->]. by right.
      * discriminate.
  - intros p2. unfold log.Append, binary.Write.
    rewrite (Write_sticky _ _ _ _ e Herr). by destruct s'.
Qed.

Lemma append_failure_atomic_witness :
  log.size (log.Append small_volume example_store large_payload).1.2
  = log.size example_store.
Proof.
  pose proof (append_failure_atomic small_volume example_store large_payload
                _ _ 0 0 ENOSPC ltac:(vm_compute; reflexivity)) as (_ & _ & H & _).
  exact H.
Defined.

(** C9. A zero-length payload.  On a store in working order and a volume
    with room for eight more bytes, [Append] of the empty payload succeeds,
    returns [8] bytes written at position [size], makes [size] and the
    content of the store grow by exactly eight bytes, and a [Read] at that
    position returns the empty payload. *)
Theorem append_empty_payload w s :
  operational w s ->
  log.size s + log.lenWidth <= os.limit w ->
  exists w' s',
    log.Append w s [] = (w', s', (8, log.size s, None))
    /\ log.size s' = log.size s + 8
    /\ contents w' s' = contents w s ++ frame []
    /\ len (contents w' s') = len (contents w s) + 8
    /\ (log.Read w' s' (log.size s)).2 = log.Record_ [].
Proof.
  intros Hop Hroom. pose proof Hop as [Ho Hr Hw Hn Hend He Hb Hf Hs].
  destruct (Append_ok w s []) as (w' & s' & n & pos & Happ); [done..| |].
  { rewrite <- len_contents by done. rewrite <- Hs. unfold len. simpl. lia. }
  destruct (operational_Append _ _ _ _ _ _ _ Hop Happ)
    as (Hop' & Hn' & Hpos & Hsize & Hcont & Hlim).
  assert (Hroom' : log.size s' <= os.limit w').
  { rewrite Hlim, Hsize. unfold len. simpl. lia. }
  assert (Hread : (log.Read w' s' (log.size s)).2 = log.Record_ []).
  { rewrite Hs. apply (operational_Read_frame _ _ _ _ []); [done| |done|done].
    by rewrite Hcont, app_nil_r. }
  subst n pos. exists w', s'.
  unfold log.lenWidth, len in *. simpl in *.
  repeat split; try done; try lia.
  rewrite Hcont, length_app. simpl. lia.
Qed.

Lemma append_empty_payload_witness :
  exists w' s',
    log.Append example_world example_store [] = (w', s', (8, 0, None))
    /\ log.size s' = 0 + 8
    /\ contents w' s' = contents example_world example_store ++ frame []
    /\ len (contents w' s') = len (contents example_world example_store) + 8
    /\ (log.Read w' s' 0).2 = log.Record_ [].
Proof.
  apply (append_empty_payload example_world example_store).
  - operational_by_evaluation.
  - vm_compute. discriminate.
Defined.

(** C10. [Read] and [ReadAt] only flush.  The state either leaves behind is
    the state a flush leaves behind: [size] is unchanged and so is the
    content of the store, buffered or not.  Hence in a sequence of them each
    answers what it would have answered alone, whatever the order, and the
    sequence leaves the same state as any one of them. *)
Theorem reads_only_flush :
  (forall w s q,
     (step w s (op_of_query q)).1 = flush_state w s
     /\ log.size (flush_state w s).2 = log.size s
     /\ contents (flush_state w s).1 (flush_state w s).2 = contents w s)
  /\ (forall w s q qs,
        run w s (map op_of_query (q :: qs))
        = (flush_state w s,
           map (fun q => (step w s (op_of_query q)).2) (q :: qs))).
Proof.
  split.
  - intros w s q. split; [apply step_query|].
    destruct (flush_state w s) as [w1 s1] eqn:Hfs.
    apply flush_state_spec in Hfs as (Hev & Hsize & _). simpl.
    split; [done|]. destruct Hev as [_ _ Hst _ _ _ _ _]. exact Hst.
  - intros w s q qs. cbn [map run].
    pose proof (step_query w s q) as Hq.
    destruct (step w s (op_of_query q)) as [[w1 s1] r]. simpl in Hq.
    rewrite (run_queries_flushed w s w1 s1 qs) by done.
    by rewrite <- Hq.
Qed.

(** * Further properties of the store *)

(** ** Helper facts *)

Lemma len_frames ps : len (frames ps) = total_frames ps.
Proof.
  induction ps as [|p ps IH]; [done|].
  unfold frames in *. cbn [map concat total_frames].
  pose proof (length_frame p) as Hp. unfold len in *.
  rewrite length_app. lia.
Qed.

Lemma frames_app ps qs : frames (ps ++ qs) = frames ps ++ frames qs.
Proof. unfold frames. by rewrite map_app, concat_app. Qed.

(** A run of successful appends keeps a store in working order and lays the
    frames of the payloads behind its content. *)
Lemma operational_appends ps : forall w s w' s' rs,
  operational w s ->
  appends w s ps = (w', s', rs) ->
  Forall (fun r => r.2 = None) rs ->
  operational w' s'
  /\ contents w' s' = contents w s ++ frames ps
  /\ os.limit w' = os.limit w
  /\ map (fun r => r.1.2) rs = positions_from (log.size s) ps.
Proof.
  induction ps as [|p ps IH]; intros w s w' s' rs Hop H Hok;
    cbn [appends positions_from] in *.
  { inversion H; subst. unfold frames. simpl. by rewrite app_nil_r. }
  destruct (log.Append w s p) as [[w1 s1] [[n pos] e]] eqn:Happ.
  destruct (appends w1 s1 ps) as [[w2 s2] rs'] eqn:Hrest.
  inversion H; subst. inversion Hok as [|? ? He Hok']; subst. simpl in He. subst e.
  destruct (operational_Append _ _ _ _ _ _ _ Hop Happ)
    as (Hop1 & _ & -> & Hs1 & Hc1 & Hl1).
  destruct (IH _ _ _ _ _ Hop1 Hrest Hok') as (Hop2 & Hc2 & Hl2 & Hpos).
  split; [done|]. split; [|split; [congruence|]].
  - rewrite Hc2, Hc1, <- app_assoc. done.
  - cbn [map]. rewrite Hpos, Hs1. done.
Qed.

(** A flush that succeeds leaves a store in working order with its buffer
    empty and every staged byte in the file. *)
Lemma operational_flushed w s w' s' :
  operational w s -> flush_error w s = None -> flush_state w s = (w', s') ->
  operational w' s'
  /\ log.size s' = log.size s
  /\ bufio.buf (log.buf s') = []
  /\ os.data w' (os.ino (log.File s')) = contents w s.
Proof.
  intros Hop Hfe Hfs.
  destruct (synced_flush _ _ _ _ (operational_synced _ _ Hop) Hfs)
    as (Hsy & Hsize & Hcont).
  pose proof Hop as [Ho Hr Hw Hn Hend He Hb Hf Hs].
  apply flush_state_spec in Hfs as (Hev & _ & Herr & Hnone & _).
  destruct (Hnone Hfe) as [Hbuf' _].
  destruct Hev as [(Hname & Hino & Hrd & Hwr & _ & Hcl) (Hpaths & Hquota & _) _ _ _ _ _ _].
  destruct Hsy as [Hend' Hfile' _ _ Hexact'].
  rewrite Herr, Hfe in *.
  assert (Hdata : os.data w' (os.ino (log.File s')) = contents w s).
  { rewrite <- Hcont. unfold contents. rewrite staged_at_end by done.
    by rewrite Hbuf', app_nil_r. }
  split; [|done].
  split; [congruence|congruence|congruence|congruence|done|done| | |auto].
  - rewrite Hbuf'. simpl. lia.
  - unfold len. rewrite <- Hend'. exact Hfile'.
Qed.

(** [Read] at the offset of a frame, when its flush succeeds and [make] has
    the memory for the record. *)
Lemma operational_Read_flushed w s pre p rest :
  operational w s -> flush_error w s = None ->
  contents w s = pre ++ frame p ++ rest ->
  runtime.makeslice w (len p) = runtime.Allocated ->
  (log.Read w s (len pre)).2 = log.Record_ p.
Proof.
  intros Hop Hfe Hcont Hmake.
  rewrite <- (flush_state_makeslice w s) in Hmake.
  destruct (flush_state w s) as [w2 s2] eqn:Hfs.
  destruct (operational_flushed _ _ _ _ Hop Hfe Hfs) as (Hop2 & _ & _ & Hdata).
  rewrite Read_unfold, Hfs, Hfe. cbn [fst snd] in *.
  destruct Hop2 as [Ho2 Hr2 _ _ _ _ _ Hf2 _].
  apply (read_record_frame _ _ _ _ rest); [done|done|by rewrite Hdata| |done].
  pose proof (length_frame p) as Hfr.
  rewrite Hdata, Hcont in Hf2. unfold len in *.
  rewrite !length_app in Hf2. lia.
Qed.

(** On a store whose handle writes at the end of its file, a step on the
    writer appends to the content and leaves what was there. *)
Lemma evolves_appends w s added w' s' :
  at_end w (log.File s) ->
  evolves w (log.File s) (log.buf s) added w' (log.File s') (log.buf s') ->
  contents w' s' = contents w s ++ added.
Proof.
  intros Hend [_ _ Hst _ _ _ _ _]. unfold contents. rewrite Hst.
  replace (staged_end w (log.File s) (log.buf s))
    with (length (staged w (log.File s) (log.buf s))).
  - apply write_at_end.
  - pose proof (len_contents _ _ Hend) as Hlc. unfold contents, len in Hlc. lia.
Qed.

(** Every operation is a step on the writer, up to the closing of the
    handle. *)
Lemma step_grows w s o w' s' r :
  synced w s -> step w s o = (w', s', r) ->
  exists added,
    contents w' s' = contents w s ++ added
    /\ os.ino (log.File s') = os.ino (log.File s)
    /\ (os.cursor w (log.File s) <= os.cursor w' (log.File s'))%nat.
Proof.
  intros Hsy Hstep. pose proof Hsy as [Hend _ _ _ _].
  assert (Hflush : forall w1 s1, flush_state w s = (w1, s1) ->
            contents w1 s1 = contents w s ++ []
            /\ os.ino (log.File s1) = os.ino (log.File s)
            /\ (os.cursor w (log.File s) <= os.cursor w1 (log.File s1))%nat).
  { intros w1 s1 Hfs. apply flush_state_spec in Hfs as (Hev & _).
    split; [by apply evolves_appends|].
    destruct Hev as [(_ & Hino & _) _ _ _ Hc _ _ _]. done. }
  destruct o as [p|pos|p off|]; simpl in Hstep.
  - destruct (log.Append w s p) as [[w1 s1] [[n pos] e]] eqn:H.
    injection Hstep as <- <- _.
    apply Append_spec in H as (_ & (added & Hev & _) & _).
    exists added. split; [by apply evolves_appends|].
    destruct Hev as [(_ & Hino & _) _ _ _ Hc _ _ _]. done.
  - rewrite Read_unfold in Hstep. destruct (flush_state w s) as [w1 s1] eqn:Hfs.
    injection Hstep as <- <- _. exists []. by apply Hflush.
  - rewrite ReadAt_unfold in Hstep. destruct (flush_state w s) as [w1 s1] eqn:Hfs.
    injection Hstep as <- <- _. exists []. by apply Hflush.
  - rewrite Close_unfold in Hstep. destruct (flush_state w s) as [w1 s1] eqn:Hfs.
    destruct (Hflush _ _ eq_refl) as (Hc & Hino & Hcur).
    destruct (flush_error w s); injection Hstep as <- <- _;
      exists []; [done|].
    unfold contents, staged, os.cursor, os.Close in *. cbn [log.File log.buf].
    destruct (os.closed (log.File s1)); done.
Qed.

Lemma run_grows ops : forall w s w' s' rs,
  synced w s -> run w s ops = (w', s', rs) ->
  synced w' s'
  /\ os.ino (log.File s') = os.ino (log.File s)
  /\ (os.cursor w (log.File s) <= os.cursor w' (log.File s'))%nat
  /\ exists added, contents w' s' = contents w s ++ added.
Proof.
  induction ops as [|o ops IH]; intros w s w' s' rs Hsy H; cbn [run] in H.
  { inversion H; subst. split; [done|]. split; [done|]. split; [done|].
    exists []. by rewrite app_nil_r. }
  destruct (step w s o) as [[w1 s1] r] eqn:Hstep.
  destruct (run w1 s1 ops) as [[w2 s2] rs'] eqn:Hrun.
  inversion H; subst.
  destruct (synced_step _ _ _ _ _ _ Hsy Hstep) as (Hsy1 & _).
  destruct (step_grows _ _ _ _ _ _ Hsy Hstep) as (a1 & Hc1 & Hi1 & Hcur1).
  destruct (IH _ _ _ _ _ Hsy1 Hrun) as (Hsy2 & Hi2 & Hcur2 & a2 & Hc2).
  split; [done|]. split; [congruence|]. split; [lia|].
  exists (a1 ++ a2). by rewrite Hc2, Hc1, <- app_assoc.
Qed.

(** An operation on a store whose writer holds an error returns that error
    and changes nothing. *)
Lemma step_sticky w s o e :
  bufio.err (log.buf s) = Some e ->
  exists r, step w s o = (w, s, r) /\ reply_error r = Some e.
Proof.
  intros He.
  assert (Hfl : bufio.Flush w (log.File s) (log.buf s)
                = (w, log.File s, log.buf s, Some e)).
  { unfold bufio.Flush. by rewrite He. }
  assert (Hfs : flush_state w s = (w, s)).
  { unfold flush_state. rewrite Hfl. by destruct s. }
  assert (Hfe : flush_error w s = Some e).
  { unfold flush_error. by rewrite Hfl. }
  destruct o as [p|pos|p off|]; cbn [step].
  - unfold log.Append, binary.Write. rewrite (Write_sticky _ _ _ _ e He).
    eexists. split; [by destruct s|done].
  - rewrite Read_unfold, Hfs, Hfe. by eexists.
  - rewrite ReadAt_unfold, Hfs, Hfe. by eexists.
  - rewrite Close_unfold, Hfs, Hfe. by eexists.
Qed.

(** ** The properties *)

(** X1. Every record reads back.  After a run of successful appends on a
    store in working order, with room on the volume for what the store
    holds, [Read] at the position any of the appends returned gives back the
    payload of that append, whatever was appended after it, when [make] has
    the memory for a slice as long as that payload. *)
Theorem records_read_back w s ps w' s' rs i p pos :
  operational w s ->
  appends w s ps = (w', s', rs) ->
  Forall (fun r => r.2 = None) rs ->
  log.size s' <= os.limit w' ->
  ps !! i = Some p ->
  map (fun r => r.1.2) rs !! i = Some pos ->
  runtime.makeslice w' (len p) = runtime.Allocated ->
  (log.Read w' s' pos).2 = log.Record_ p.
Proof.
  intros Hop Happ Hok Hroom Hp Hpos Hmake.
  pose proof Hop as [_ _ _ _ _ _ _ _ Hsize].
  destruct (operational_appends _ _ _ _ _ _ Hop Happ Hok)
    as (Hop' & Hcont & _ & Hposs).
  rewrite Hposs in Hpos. apply positions_from_lookup in Hpos.
  assert (Hpre : pos = len (contents w s ++ frames (take i ps))).
  { pose proof (len_frames (take i ps)) as Hl. unfold len in *.
    rewrite length_app. lia. }
  rewrite Hpre.
  apply (operational_Read_frame _ _ _ _ (frames (drop (S i) ps)));
    [done| |done|done].
  rewrite Hcont, <- (take_drop_middle ps i p Hp) at 1.
  rewrite frames_app. unfold frames at 2. cbn [map concat].
  fold (frames (drop (S i) ps)). by rewrite <- !app_assoc.
Qed.

Lemma records_read_back_witness :
  (log.Read
     (appends example_world example_store [text "hello"; text "hi"; []]).1.1
     (appends example_world example_store [text "hello"; text "hi"; []]).1.2
     13).2
  = log.Record_ (text "hi").
Proof.
  apply (records_read_back example_world example_store
           [text "hello"; text "hi"; []]
           (appends example_world example_store [text "hello"; text "hi"; []]).1.1
           (appends example_world example_store [text "hello"; text "hi"; []]).1.2
           (appends example_world example_store [text "hello"; text "hi"; []]).2
           1%nat (text "hi") 13).
  - operational_by_evaluation.
  - vm_compute. reflexivity.
  - repeat constructor.
  - vm_compute. discriminate.
  - reflexivity.
  - vm_compute. reflexivity.
  - vm_compute. reflexivity.
Defined.

(** X2. The store only appends.  On a store whose handle writes at the end
    of its file, no sequence of [Append], [Read], [ReadAt] and [Close],
    whether they succeed or fail, changes or removes a byte the store
    already held: the staged content after the run is the content before
    followed by more bytes, and so is the file itself. *)
Theorem store_only_appends w s ops w' s' rs :
  synced w s ->
  run w s ops = (w', s', rs) ->
  (exists added, contents w' s' = contents w s ++ added)
  /\ (exists more,
        os.data w' (os.ino (log.File s))
        = os.data w (os.ino (log.File s)) ++ more).
Proof.
  intros Hsy Hrun. pose proof Hsy as [Hend _ _ _ _].
  destruct (run_grows _ _ _ _ _ _ Hsy Hrun) as ([Hend' _ _ _ _] & Hino & Hcur & added & Hc).
  split; [by exists added|].
  unfold contents in Hc. rewrite !staged_at_end in Hc by done.
  rewrite Hino in Hc. unfold at_end in *. rewrite Hino in Hend'.
  set (d := os.data w (os.ino (log.File s))) in *.
  set (d' := os.data w' (os.ino (log.File s))) in *.
  exists (drop (length d) d').
  assert (Hd : d = take (length d) d').
  { apply (f_equal (take (length d))) in Hc.
    rewrite <- app_assoc, take_app_length in Hc.
    rewrite take_app_le in Hc by lia. done. }
  rewrite Hd at 1. by rewrite take_drop.
Qed.

Lemma store_only_appends_witness :
  exists more,
    os.data
      (run example_world example_store
         [OpAppend (text "hello"); OpRead 0; OpAppend (text "hi"); OpClose;
          OpAppend (text "x")]).1.1 0
    = os.data example_world 0 ++ more.
Proof.
  exact (proj2 (store_only_appends example_world example_store
                  [OpAppend (text "hello"); OpRead 0; OpAppend (text "hi");
                   OpClose; OpAppend (text "x")] _ _ _
                  ltac:(synced_by_evaluation)
                  ltac:(vm_compute; reflexivity))).
Defined.

(** X3. [Close] is the durability point.  When [Close] succeeds on a store
    in working order, the file on storage holds exactly the content of the
    store, buffered bytes included, the size [os.Stat] reports is [size],
    the buffer is empty and the handle is closed. *)
Theorem close_makes_durable w s w' s' :
  operational w s ->
  log.Close w s = (w', s', None) ->
  os.data w' (os.ino (log.File s)) = contents w s
  /\ os.Stat w' (os.name (log.File s)) = (log.size s, None)
  /\ bufio.buf (log.buf s') = []
  /\ os.closed (log.File s') = true
  /\ log.size s' = log.size s.
Proof.
  intros Hop Hclose. pose proof Hop as [_ _ _ Hnamed _ _ _ _ _].
  destruct (operational_Close _ _ _ _ Hop Hclose)
    as (Hpaths & Hsize & Hdata & Hlen & _).
  split; [done|]. split; [|split; [|split; [by eapply Close_ok_closed|done]]].
  - unfold os.Stat. by rewrite Hpaths, Hnamed, Hdata, Hlen.
  - revert Hclose. rewrite Close_unfold.
    destruct (flush_error w s) as [e|] eqn:Hfe; [discriminate|].
    destruct (flush_state w s) as [w1 s1] eqn:Hfs.
    intros [= _ <- _]. cbn [log.buf].
    apply flush_state_spec in Hfs as (_ & _ & _ & Hnone & _).
    by destruct (Hnone Hfe).
Qed.

Lemma close_makes_durable_witness :
  os.Stat
    (log.Close (log.Append example_world example_store (text "hello")).1.1
               (log.Append example_world example_store (text "hello")).1.2).1.1
    "store.log"
  = (13, None).
Proof.
  pose proof (close_makes_durable
                (log.Append example_world example_store (text "hello")).1.1
                (log.Append example_world example_store (text "hello")).1.2
                _ _ ltac:(operational_by_evaluation)
                ltac:(vm_compute; reflexivity)) as (_ & H & _).
  exact H.
Defined.

(** X4. Records survive a restart.  When a store in working order is closed
    with success and a new store is built over a fresh handle on the same
    name, [Read] on the new store, at the offset of any frame the old store
    held, returns the payload of that frame, when [make] has the memory for
    a slice as long as that payload. *)
Theorem records_survive_reopen w s w' s' f2 s2 pre p rest :
  operational w s ->
  contents w s = pre ++ frame p ++ rest ->
  log.Close w s = (w', s', None) ->
  fresh_handle w' f2 ->
  os.name f2 = os.name (log.File s) ->
  log.newStore w' f2 = log.Ok s2 ->
  runtime.makeslice w' (len p) = runtime.Allocated ->
  (log.Read w' s2 (len pre)).2 = log.Record_ p.
Proof.
  intros Hop Hcont Hclose Hfresh Hname Hnew Hmake.
  pose proof Hop as [_ _ _ Hnamed _ _ _ _ _].
  destruct (operational_Close _ _ _ _ Hop Hclose) as (Hpaths & _ & Hdata & _).
  destruct (newStore_fresh _ _ Hfresh) as (s2' & Hnew' & Hop2 & Hfile & Hbuf & _).
  rewrite Hnew in Hnew'. injection Hnew' as <-.
  assert (Hino : os.ino f2 = os.ino (log.File s)).
  { destruct Hfresh as [_ _ _ Hn2 _ _].
    rewrite Hname, Hpaths, Hnamed in Hn2. by injection Hn2. }
  apply (operational_Read_flushed _ _ _ _ rest); [done| | |done].
  - unfold flush_error, bufio.Flush. by rewrite Hbuf.
  - unfold contents. destruct Hop2 as [_ _ _ _ Hend2 _ _ _ _].
    rewrite staged_at_end by done.
    rewrite Hbuf, Hfile, Hino, Hdata, Hcont. cbn [bufio.NewWriter bufio.buf].
    by rewrite app_nil_r.
Qed.

Lemma records_survive_reopen_witness :
  (log.Read
     (log.Close (appends example_world example_store
                   [text "hello"; text "hi"]).1.1
                (appends example_world example_store
                   [text "hello"; text "hi"]).1.2).1.1
     {| log.File := example_handle; log.buf := bufio.NewWriter; log.size := 23 |}
     (len (frame (text "hello")))).2
  = log.Record_ (text "hi").
Proof.
  apply (records_survive_reopen
           (appends example_world example_store [text "hello"; text "hi"]).1.1
           (appends example_world example_store [text "hello"; text "hi"]).1.2
           (log.Close (appends example_world example_store
                         [text "hello"; text "hi"]).1.1
                      (appends example_world example_store
                         [text "hello"; text "hi"]).1.2).1.1
           (log.Close (appends example_world example_store
                         [text "hello"; text "hi"]).1.1
                      (appends example_world example_store
                         [text "hello"; text "hi"]).1.2).1.2
           example_handle
           {| log.File := example_handle; log.buf := bufio.NewWriter;
              log.size := 23 |}
           (frame (text "hello")) (text "hi") []).
  - operational_by_evaluation.
  - vm_compute. reflexivity.
  - vm_compute. reflexivity.
  - fresh_handle_by_evaluation.
  - reflexivity.
  - vm_compute. reflexivity.
  - vm_compute. reflexivity.
Defined.

(** X5. A write error is final.  Once the writer of a store holds an error,
    every [Append], [Read], [ReadAt] and [Close] returns that error and
    leaves the file system and the store exactly as they are. *)
Theorem write_error_is_final w s e :
  bufio.err (log.buf s) = Some e ->
  forall ops,
    exists rs,
      run w s ops = (w, s, rs)
      /\ length rs = length ops
      /\ Forall (fun r => reply_error r = Some e) rs.
Proof.
  intros He ops. induction ops as [|o ops (rs & Hrun & Hlen & Hall)].
  { exists []. done. }
  destruct (step_sticky w s o e He) as (r & Hstep & Hr).
  exists (r :: rs). cbn [run]. rewrite Hstep, Hrun.
  split; [done|]. split; [simpl; lia|]. by constructor.
Qed.

Lemma write_error_is_final_witness :
  exists rs,
    run (log.Append small_volume example_store large_payload).1.1
        (log.Append small_volume example_store large_payload).1.2
        [OpAppend (text "x"); OpRead 0; OpClose]
    = ((log.Append small_volume example_store large_payload).1.1,
       (log.Append small_volume example_store large_payload).1.2, rs)
    /\ length rs = 3%nat
    /\ Forall (fun r => reply_error r = Some ENOSPC) rs.
Proof.
  apply (write_error_is_final
           (log.Append small_volume example_store large_payload).1.1
           (log.Append small_volume example_store large_payload).1.2 ENOSPC).
  vm_compute. reflexivity.
Defined.

(** X6. Positions under any interleaving.  On a store whose handle writes at
    the end of its file, in any sequence of operations, failed ones
    included, every [Append] that succeeds returns [8 + len p] and, as its
    position, the initial [size] plus the frames of the appends that
    succeeded before it: reads, closes and failed appends in between leave
    no gap. *)
Theorem positions_under_interleaving ops : forall w s w' s' rs i p n pos,
  synced w s ->
  run w s ops = (w', s', rs) ->
  ops !! i = Some (OpAppend p) ->
  rs !! i = Some (ReAppend (n, pos, None)) ->
  n = 8 + len p
  /\ pos = log.size s + total_appended (take i ops) (take i rs).
Proof.
  induction ops as [|o ops IH]; intros w s w' s' rs i p n pos Hsy Hrun Ho Hr;
    [done|].
  cbn [run] in Hrun.
  destruct (step w s o) as [[w1 s1] r] eqn:Hstep.
  destruct (run w1 s1 ops) as [[w2 s2] rs'] eqn:Hrest.
  injection Hrun as <- <- <-.
  destruct (synced_step _ _ _ _ _ _ Hsy Hstep) as (Hsy1 & Hs1).
  destruct i as [|i]; cbn in Ho, Hr.
  - injection Ho as ->. injection Hr as ->.
    cbn [step] in Hstep.
    destruct (log.Append w s p) as [[w0 s0] r0] eqn:Happ.
    injection Hstep as <- <- ->.
    destruct (synced_Append _ _ _ _ _ _ _ _ Hsy Happ) as (_ & Hok & _).
    destruct (Hok eq_refl) as (-> & -> & _). unfold log.lenWidth. simpl.
    split; lia.
  - destruct (IH _ _ _ _ _ _ _ _ _ Hsy1 Hrest Ho Hr) as (-> & ->).
    split; [done|]. cbn [take total_appended]. lia.
Qed.

Lemma positions_under_interleaving_witness :
  10 = 8 + len (text "hi")
  /\ 13 = log.size example_store
          + total_appended
              (take 3 [OpAppend (text "hello"); OpRead 0;
                       OpReadAt (make 4) 2; OpAppend (text "hi")])
              (take 3 (run example_world example_store
                         [OpAppend (text "hello"); OpRead 0;
                          OpReadAt (make 4) 2; OpAppend (text "hi")]).2).
Proof.
  apply (positions_under_interleaving
           [OpAppend (text "hello"); OpRead 0; OpReadAt (make 4) 2;
            OpAppend (text "hi")]
           example_world example_store
           (run example_world example_store
              [OpAppend (text "hello"); OpRead 0; OpReadAt (make 4) 2;
               OpAppend (text "hi")]).1.1
           (run example_world example_store
              [OpAppend (text "hello"); OpRead 0; OpReadAt (make 4) 2;
               OpAppend (text "hi")]).1.2
           (run example_world example_store
              [OpAppend (text "hello"); OpRead 0; OpReadAt (make 4) 2;
               OpAppend (text "hi")]).2
           3%nat (text "hi") 10 13).
  - synced_by_evaluation.
  - vm_compute. reflexivity.
  - reflexivity.
  - vm_compute. reflexivity.
Defined.

(** X7. Reading at the end.  On a store in working order, with room on the
    volume for the flush, [Read] at a position at or past the end of the
    store returns [io.EOF]; where the eight bytes it asks for would end past
    the largest file offset, the [EINVAL] of [pread(2)]; and at a position
    that does not fit an [int64], the negative-offset error of
    [os.File.ReadAt].  It never returns a record there and never panics. *)
Theorem read_past_end w s pos :
  operational w s ->
  log.size s <= os.limit w ->
  log.size s <= pos < 2 ^ 64 ->
  (log.Read w s pos).2
  = log.Error_ (if maxInt64 <? pos then ErrNegativeOffset
                else if maxInt64 <? pos + 8 then EINVAL
                else EOF).
Proof.
  intros Hop Hroom Hpos.
  destruct (operational_flush _ _ Hop Hroom)
    as (w2 & s2 & Hfs & Hfe & Hop2 & Hsize & _ & Hdata).
  pose proof Hop as [_ _ _ _ _ _ _ _ Hs].
  rewrite Read_unfold, Hfs, Hfe. cbn [fst snd].
  destruct Hop2 as [Ho2 Hr2 _ _ _ _ _ _ _].
  unfold read_record, os.ReadAt.
  destruct (Z.ltb_spec maxInt64 pos) as [Hbig|Hfit].
  - assert (Hneg : to_int64 pos < 0).
    { unfold to_int64, maxInt64 in *.
      replace ((pos + 2 ^ 63) mod 2 ^ 64) with (pos - 2 ^ 63); [lia|].
      apply Z.mod_unique with 1; lia. }
    destruct (Z.ltb_spec (to_int64 pos) 0); [done|lia].
  - rewrite to_int64_small by (unfold len in *; lia).
    destruct (Z.ltb_spec pos 0); [unfold len in *; lia|].
    rewrite Ho2, Hr2, Hdata. cbn [negb].
    change (len (make (Z.to_nat log.lenWidth))) with 8.
    change (length (make (Z.to_nat log.lenWidth)) =? 0)%nat with false.
    cbv iota.
    destruct (maxInt64 <? pos + 8); [done|].
    rewrite drop_ge by (unfold len in *; lia). done.
Qed.

Lemma read_past_end_witness :
  (log.Read example_world example_store 0).2 = log.Error_ EOF
  /\ (log.Read example_world example_store (2 ^ 63 - 8)).2 = log.Error_ EINVAL.
Proof.
  split.
  - apply (read_past_end example_world example_store 0).
    + operational_by_evaluation.
    + vm_compute. discriminate.
    + vm_compute. split; [discriminate|reflexivity].
  - apply (read_past_end example_world example_store (2 ^ 63 - 8)).
    + operational_by_evaluation.
    + vm_compute. discriminate.
    + vm_compute. split; [discriminate|reflexivity].
Defined.

(** X8. [ReadAt] sees buffered bytes.  On a store in working order, with
    room on the volume for the flush: [ReadAt] into [p] at an offset from
    which the store holds at least [len p] bytes, in the file or still in
    the buffer, fills [p] with exactly those bytes and returns [len p]
    without error.  When the store holds fewer, [ReadAt] into a non-empty
    [p] whose range ends within the largest file offset puts the bytes
    there are at the head of [p] and returns their count and [io.EOF]; for
    a range that ends past the largest file offset it returns [0] and the
    [EINVAL] of [pread(2)], and [p] is as it was. *)
Theorem ReadAt_reads_staged_bytes w s p off :
  operational w s ->
  log.size s <= os.limit w ->
  0 <= off ->
  (off + len p <= log.size s ->
   (log.ReadAt w s p off).2
   = (length p, take (length p) (drop (Z.to_nat off) (contents w s)), None))
  /\ (p <> [] -> log.size s < off + len p -> off + len p <= maxInt64 ->
      (log.ReadAt w s p off).2
      = (length (drop (Z.to_nat off) (contents w s)),
         drop (Z.to_nat off) (contents w s)
           ++ drop (length (drop (Z.to_nat off) (contents w s))) p,
         Some EOF))
  /\ (p <> [] -> maxInt64 < off + len p ->
      (log.ReadAt w s p off).2 = (0%nat, p, Some EINVAL)).
Proof.
  intros Hop Hroom Hoff.
  destruct (operational_flush _ _ Hop Hroom)
    as (w2 & s2 & Hfs & Hfe & Hop2 & Hsize & _ & Hdata).
  pose proof Hop as [_ _ _ _ _ _ _ _ Hs].
  pose proof (limit_le_maxInt64 w) as Hlim.
  rewrite ReadAt_unfold, Hfs, Hfe. cbn [fst snd].
  destruct Hop2 as [Ho2 Hr2 _ _ _ _ _ _ _].
  unfold os.ReadAt. destruct (Z.ltb_spec off 0); [lia|].
  rewrite Ho2, Hr2, Hdata. cbn [negb].
  set (tail := drop (Z.to_nat off) (contents w s)).
  assert (Htail : length tail = (length (contents w s) - Z.to_nat off)%nat)
    by apply length_drop.
  split; [|split].
  - intros Hin. destruct (Nat.eqb_spec (length p) 0) as [Hz|Hnz].
    { destruct p; [|done]. done. }
    destruct (Z.ltb_spec maxInt64 (off + len p)); [lia|].
    assert (Hgot : length (take (length p) tail) = length p).
    { rewrite length_take. unfold len in *. lia. }
    rewrite Hgot, Nat.ltb_irrefl, drop_all, app_nil_r. done.
  - intros Hp Hshort Hmax. destruct (Nat.eqb_spec (length p) 0) as [Hz|Hnz].
    { destruct p; done. }
    destruct (Z.ltb_spec maxInt64 (off + len p)); [lia|].
    assert (Hgot : take (length p) tail = tail).
    { apply take_ge. unfold len in *. lia. }
    rewrite Hgot.
    destruct (Nat.ltb_spec (length tail) (length p)); [done|].
    unfold len in *. lia.
  - intros Hp Hmax. destruct (Nat.eqb_spec (length p) 0) as [Hz|Hnz].
    { destruct p; done. }
    destruct (Z.ltb_spec maxInt64 (off + len p)); [done|lia].
Qed.

Lemma ReadAt_reads_staged_bytes_witness :
  (log.ReadAt (log.Append example_world example_store (text "hello")).1.1
              (log.Append example_world example_store (text "hello")).1.2
              (make 3) 9).2
  = (3%nat,
     take 3 (drop (Z.to_nat 9)
               (contents
                  (log.Append example_world example_store (text "hello")).1.1
                  (log.Append example_world example_store (text "hello")).1.2)),
     None)
  /\ (log.ReadAt (log.Append example_world example_store (text "hello")).1.1
                 (log.Append example_world example_store (text "hello")).1.2
                 (make 3) (2 ^ 63 - 1)).2
     = (0%nat, make 3, Some EINVAL).
Proof.
  split.
  - apply (proj1 (ReadAt_reads_staged_bytes
                    (log.Append example_world example_store (text "hello")).1.1
                    (log.Append example_world example_store (text "hello")).1.2
                    (make 3) 9
                    ltac:(operational_by_evaluation)
                    ltac:(vm_compute; discriminate)
                    ltac:(vm_compute; discriminate))).
    vm_compute. discriminate.
  - apply (proj2 (proj2 (ReadAt_reads_staged_bytes
                    (log.Append example_world example_store (text "hello")).1.1
                    (log.Append example_world example_store (text "hello")).1.2
                    (make 3) (2 ^ 63 - 1)
                    ltac:(operational_by_evaluation)
                    ltac:(vm_compute; discriminate)
                    ltac:(vm_compute; discriminate)))).
    + discriminate.
    + vm_compute. reflexivity.
Defined.

(** X9. What a failed [Close] leaves behind.  [Close] on a store whose
    handle is open never changes [size] or a staged byte.  When its flush
    fails, [Close] returns the error of the flush, the handle is still open
    and the writer holds the error.  When its flush succeeds, the buffer is
    empty, the handle is closed whatever [close(2)] answers, and [Close]
    returns the answer of [close(2)]: an error from there comes with a
    handle that is released. *)
Theorem close_failure_modes w s w' s' err :
  os.closed (log.File s) = false ->
  log.Close w s = (w', s', err) ->
  log.size s' = log.size s
  /\ staged w' (log.File s') (log.buf s') = staged w (log.File s) (log.buf s)
  /\ (forall e, flush_error w s = Some e ->
        err = Some e /\ os.closed (log.File s') = false
        /\ bufio.err (log.buf s') = Some e)
  /\ (flush_error w s = None ->
      err = os.close_error w /\ os.closed (log.File s') = true
      /\ bufio.buf (log.buf s') = [] /\ bufio.err (log.buf s') = None).
Proof.
  intros Hopen. rewrite Close_unfold.
  destruct (flush_state w s) as [w1 s1] eqn:Hfs.
  apply flush_state_spec in Hfs as (Hev & Hsize & Herr & Hnone & _).
  destruct Hev as [(_ & _ & _ & _ & _ & Hcl) (_ & _ & _ & Hce) Hst _ _ _ _ _].
  destruct (flush_error w s) as [e0|].
  - intros [= <- <- <-]. split; [done|]. split; [done|]. split; [|done].
    intros e [= <-]. split; [done|]. split; [congruence|done].
  - destruct (Hnone eq_refl) as [Hbuf _].
    cbn [log.File]. unfold os.Close.
    destruct (os.closed (log.File s1)) eqn:Hc1; [congruence|].
    intros [= <- <- <-]. cbn [log.File log.buf log.size fst snd].
    split; [done|]. split; [|split; [done|]].
    + etransitivity; [|exact Hst]. done.
    + intros _. done.
Qed.

Lemma close_failure_modes_witness :
  os.closed
    (log.File
       (log.Close
          (log.Append small_volume example_store (text "hello")).1.1
          (log.Append small_volume example_store (text "hello")).1.2).1.2)
  = false
  /\ (log.Close failing_close example_store).2 = Some EIO
  /\ os.closed (log.File (log.Close failing_close example_store).1.2) = true.
Proof.
  split; [|split].
  - destruct (close_failure_modes
                (log.Append small_volume example_store (text "hello")).1.1
                (log.Append small_volume example_store (text "hello")).1.2
                (log.Close
                   (log.Append small_volume example_store (text "hello")).1.1
                   (log.Append small_volume example_store (text "hello")).1.2).1.1
                (log.Close
                   (log.Append small_volume example_store (text "hello")).1.1
                   (log.Append small_volume example_store (text "hello")).1.2).1.2
                (Some ENOSPC)
                ltac:(reflexivity)
                ltac:(vm_compute; reflexivity)) as (_ & _ & H & _).
    destruct (H ENOSPC ltac:(vm_compute; reflexivity)) as (_ & Hopen & _).
    exact Hopen.
  - destruct (close_failure_modes failing_close example_store
                (log.Close failing_close example_store).1.1
                (log.Close failing_close example_store).1.2
                (Some EIO)
                ltac:(reflexivity)
                ltac:(vm_compute; reflexivity)) as (_ & _ & _ & H).
    destruct (H ltac:(vm_compute; reflexivity)) as (He & _).
    exact He.
  - destruct (close_failure_modes failing_close example_store
                (log.Close failing_close example_store).1.1
                (log.Close failing_close example_store).1.2
                (Some EIO)
                ltac:(reflexivity)
                ltac:(vm_compute; reflexivity)) as (_ & _ & _ & H).
    destruct (H ltac:(vm_compute; reflexivity)) as (_ & Hc & _).
    exact Hc.
Defined.

(** X10. The frame round-trips.  For a payload whose length fits a
    [uint64], the bytes [Append] hands to the writer are [8 + len p] long,
    their first eight bytes decode, as [Read] decodes them, to [len p], and
    the bytes after them are [p]. *)
Theorem frame_round_trip p :
  len p < 2 ^ 64 ->
  len (frame p) = 8 + len p
  /\ binary.Uint64 (take 8 (frame p)) = len p
  /\ drop 8 (frame p) = p
  /\ frame p = binary.PutUint64 (to_uint64 (len p)) ++ p.
Proof.
  intros Hfit. assert (Hp : 0 <= len p) by (unfold len; lia).
  split; [apply length_frame|]. unfold frame.
  rewrite (take_app_length' _ _ 8), (drop_app_length' _ _ 8) by done.
  rewrite Uint64_PutUint64, to_uint64_small by lia. done.
Qed.

Lemma frame_round_trip_witness :
  binary.Uint64 (take 8 (frame large_payload)) = len large_payload.
Proof.
  pose proof (frame_round_trip large_payload ltac:(vm_compute; reflexivity))
    as (_ & H & _).
  exact H.
Defined.

(** X11. A read makes the appended bytes durable.  On a store in working
    order, when the flush at the head of [Read] or [ReadAt] succeeds, the
    file on storage holds afterwards every byte of the store, the size
    [os.Stat] reports is [size], and nothing is left in the buffer,
    whatever the read itself returns. *)
Theorem read_makes_durable w s q :
  operational w s ->
  flush_error w s = None ->
  let w' := (step w s (op_of_query q)).1.1 in
  let s' := (step w s (op_of_query q)).1.2 in
  os.data w' (os.ino (log.File s)) = contents w s
  /\ os.Stat w' (os.name (log.File s)) = (log.size s, None)
  /\ bufio.buf (log.buf s') = []
  /\ log.size s' = log.size s.
Proof.
  intros Hop Hfe w' s'. subst w' s'. rewrite step_query.
  destruct (flush_state w s) as [w1 s1] eqn:Hfs. cbn [fst snd].
  destruct (operational_flushed _ _ _ _ Hop Hfe Hfs) as (Hop1 & Hsize & Hbuf & Hdata).
  pose proof Hop as [_ _ _ Hnamed _ _ _ _ Hs].
  apply flush_state_spec in Hfs as (Hev & _).
  destruct Hev as [(_ & Hino & _) [Hpaths _] _ _ _ _ _ _].
  rewrite Hino in Hdata.
  split; [done|]. split; [|done].
  unfold os.Stat. by rewrite Hpaths, Hnamed, Hdata, Hs.
Qed.

Lemma read_makes_durable_witness :
  os.Stat
    (step (log.Append example_world example_store (text "hello")).1.1
          (log.Append example_world example_store (text "hello")).1.2
          (op_of_query (QRead 40))).1.1
    "store.log"
  = (13, None).
Proof.
  pose proof (read_makes_durable
                (log.Append example_world example_store (text "hello")).1.1
                (log.Append example_world example_store (text "hello")).1.2
                (QRead 40)
                ltac:(operational_by_evaluation)
                ltac:(vm_compute; reflexivity)) as (_ & H & _).
  exact H.
Defined.

(** * The model at work

    Evaluations of the model that the theorems above do not need and that
    show what they leave open. *)

(** The scenario of the specification, run on the empty store: the two
    appends, the two reads, and the size of the file after [Close]. *)
Example scenario_hello_hi :
  (run example_world example_store
     [OpAppend (text "hello"); OpAppend (text "hi"); OpRead 0; OpRead 13;
      OpClose]).2
  = [ReAppend (13, 0, None); ReAppend (10, 13, None);
     ReRead (log.Record_ (text "hello")); ReRead (log.Record_ (text "hi"));
     ReClose None]
  /\ os.Stat
       (run example_world example_store
          [OpAppend (text "hello"); OpAppend (text "hi"); OpRead 0; OpRead 13;
           OpClose]).1.1 "store.log"
     = (23, None).
Proof. split; vm_compute; reflexivity. Qed.

(** An [Append] that fails half-way leaves [size] alone, not the file: on a
    volume that accepts ten bytes, the first ten bytes of the frame reach
    the file and the rest stays in the buffer, behind a sticky error. *)
Example failed_append_leaves_bytes :
  (log.Append small_volume example_store large_payload).2 = (0, 0, Some ENOSPC)
  /\ log.size (log.Append small_volume example_store large_payload).1.2 = 0
  /\ length (os.data (log.Append small_volume example_store large_payload).1.1 0)
     = 10%nat
  /\ length (bufio.buf (log.buf
               (log.Append small_volume example_store large_payload).1.2))
     = 4086%nat.
Proof. repeat split; vm_compute; reflexivity. Qed.

(** A [Read] inside a record can also end in [make].  When the eight bytes
    found at the position decode to more than [maxAlloc], [make] panics;
    when they decode to less than that and more than the system grants, the
    program is aborted.  After [Append "hello"], the eight bytes at position
    [5] are [0 0 5 h e l l o], which decode to more than five terabytes. *)
Example read_inside_record_can_panic :
  (log.Read
     (log.Append example_world example_store (replicate 8 "255"%byte)).1.1
     (log.Append example_world example_store (replicate 8 "255"%byte)).1.2 8).2
  = log.Panic_
  /\ (log.Read
        (log.Append example_world example_store
           (binary.PutUint64 (2 ^ 48 + 1))).1.1
        (log.Append example_world example_store
           (binary.PutUint64 (2 ^ 48 + 1))).1.2 8).2
     = log.Panic_
  /\ (log.Read
        (log.Append example_world example_store (text "hello")).1.1
        (log.Append example_world example_store (text "hello")).1.2 5).2
     = log.OutOfMemory_.
Proof. repeat split; vm_compute; reflexivity. Qed.

(** The round trip needs the memory for the record: where the system grants
    three bytes, [Append "hello"] succeeds and [Read] at its position is
    aborted in [make]. *)
Example read_after_append_needs_memory :
  (log.Append low_memory example_store (text "hello")).2 = (13, 0, None)
  /\ (log.Read (log.Append low_memory example_store (text "hello")).1.1
               (log.Append low_memory example_store (text "hello")).1.2 0).2
     = log.OutOfMemory_.
Proof. split; vm_compute; reflexivity. Qed.
